(** * The bounded-concurrency upload queue of the drag-and-drop uploader

    A shallow embedding of [topics/react/dnd-uploader]: the item model
    ([types.ts]), the helpers of [utils.ts], the transfer simulator
    [mockUpload] ([api.ts]), the scheduler [useUploadQueue] and the item
    operations of the [A11yUploader] component.

    Conventions of the embedding.
    - A JavaScript number that only ever holds an integer is a [Z].
    - [setItems(updater)] applies [updater] to the current collection; the
      updaters run one after the other, in the order in which they were
      issued, so each operation is a function from state to state.
    - An [AbortController] is an object shared by every copy of the item that
      holds it ([{...it}] copies the reference).  Controllers are therefore
      kept in a store and items hold a handle into it.  [pump] creates one
      controller per [mockUpload] call, so the controller and the closure
      state of that call live in the same store cell ([Transfer]).
    - What the environment decides ([Math.random], [Date.now], [uid],
      [URL.createObjectURL], binary64 rounding) is an input of the step that
      consults it.
    - [validateFile] ([utils.ts]) reads [ACCEPT] and [MAX_SIZE_BYTES], which
      [utils.ts] neither declares nor imports: they are module-level [const]s
      of [A11yUploader.tsx], which does not export them.  As the modules
      stand the two names are unbound where [validateFile] runs and the call
      throws a ReferenceError.  [validateFile_in] is the function with the
      lookup of the two names written out, for any binding of them
      ([Scope]), and [pushFiles_in] is [pushFiles] on top of it.
      [validateFile] and [pushFiles] are their instances at the constants of
      [A11yUploader.tsx] ([component_scope]), that is the program with the
      two constants visible to [utils.ts]; the sessions run these. *)

From stdpp Require Import base list strings pretty.

Local Open Scope Z_scope.

(** ** types.ts *)

Inductive UploadStatus :=
  | Idle | Queued | Uploading | Success | Error | Canceled.

#[global] Instance UploadStatus_eq_dec : EqDecision UploadStatus.
Proof. solve_decision. Defined.

(** The part of a DOM [File] the program reads. *)
Record File := mkFile {
  name : string;
  size : Z;
  lastModified : Z;
  type : string
}.

Record Item := mkItem {
  id : string;
  file : File;
  previewUrl : string;
  progress : Z;
  status : UploadStatus;
  error : option string;
  serverUrl : option string;
  abortCtrl : option nat
}.

(** ** A11yUploader.tsx, constants

    Declared with [const] at the top of the module and not exported. *)

Definition ACCEPT : list string := ["image/png"; "image/jpeg"; "image/webp"].
Definition MAX_SIZE_BYTES : Z := 5 * 1024 * 1024.
Definition MAX_FILES : Z := 10.

(** ** utils.ts *)

Definition isDuplicate (a b : File) : bool :=
  bool_decide (name a = name b) && bool_decide (size a = size b)
  && bool_decide (lastModified a = lastModified b).

(** [(bytes / (1024 * 1024)).toFixed(2)].  Dividing an integer below 2^53 by
    2^20 is exact in binary64, and [toFixed(2)] picks the integer [n] with
    [n / 100] nearest to that quotient, the larger one on a tie. *)
Definition toFixed2_MB (bytes : Z) : string :=
  let n := (200 * bytes + 1048576) `div` 2097152 in
  let frac := n `mod` 100 in
  pretty (n `div` 100) +:+ "." +:+ pretty (frac `div` 10) +:+ pretty (frac `mod` 10).

(** [validateFile] with [ACCEPT] and [MAX_SIZE_BYTES] taken from
    [A11yUploader.tsx].  This is not what [utils.ts] does as it stands: the
    module has no binding for the two names, so the first line throws a
    ReferenceError for every file.  The function with the lookup written out
    is [validateFile_in] below; this definition is its instance at
    [component_scope] (lemma [validateFile_in_component]). *)
Definition validateFile (f : File) : option string :=
  if negb (bool_decide (type f ∈ ACCEPT)) then
    Some ("허용되지 않는 형식("
          +:+ (if bool_decide (type f = "") then "unknown" else type f) +:+ ")")
  else if bool_decide (size f > MAX_SIZE_BYTES) then
    Some ("파일 용량 초과(" +:+ toFixed2_MB (size f) +:+ "MB)")
  else None.

(** ** api.ts: the transfer simulator *)

(** The values a rejected upload can carry. *)
Inductive Thrown :=
  | DOMException (message name : string)
  | JsError (message : string)
  | ReferenceError (message : string).

Definition message_of (e : Thrown) : string :=
  match e with
  | DOMException m _ | JsError m | ReferenceError m => m
  end.

(** [const timer]: not yet initialised (the executor has not reached the
    declaration), an interval that will fire, or a cleared one. *)
Inductive Timer := Uninitialized | Active | Cleared.

Inductive Promise :=
  | Pending
  | Fulfilled (rid url : string)
  | Rejected (err : Thrown).

(** The closure state of one [mockUpload] call. *)
Record Upload := mkUpload {
  totalMs : Z;
  canceled : bool;
  timer : Timer;
  promise : Promise
}.

(** Settling a promise a second time has no effect. *)
Definition settle (p : Promise) (u : Upload) : Upload :=
  match promise u with
  | Pending => mkUpload (totalMs u) (canceled u) (timer u) p
  | _ => u
  end.

Definition resolve (rid url : string) : Upload → Upload := settle (Fulfilled rid url).
Definition reject (e : Thrown) : Upload → Upload := settle (Rejected e).

(** The message of the [ReferenceError] that reading a [const] before its
    initialisation throws (the wording is the engine's). *)
Definition tdz_message : string := "Cannot access 'timer' before initialization".

Definition NETWORK_ERROR : string := "네트워크 오류가 발생했습니다.".

(** [onAbort]: sets [canceled], then evaluates [clearInterval(timer)], which
    throws when [timer] is still uninitialised, then rejects.  The second
    component is the exception, if any, that leaves the function. *)
Definition onAbort (u : Upload) : Upload * option Thrown :=
  let u1 := mkUpload (totalMs u) true (timer u) (promise u) in
  match timer u1 with
  | Uninitialized => (u1, Some (ReferenceError tdz_message))
  | _ =>
      (reject (DOMException "Aborted" "AbortError")
         (mkUpload (totalMs u1) (canceled u1) Cleared (promise u1)), None)
  end.

(** [mockUpload(file, onProgress, signal)] up to the return of the promise
    executor.  [draw] is [Math.floor(Math.random() * 1200)]; [signal] is
    [None] when no signal is passed and [Some b] for a signal whose [aborted]
    flag is [b].  The result is the closure state and whether [onAbort] was
    registered as a listener of the signal.  An exception that leaves the
    executor rejects the promise. *)
Definition mockUpload (draw : Z) (signal : option bool) : Upload * bool :=
  let u0 := mkUpload (800 + draw) false Uninitialized Pending in
  let started := mkUpload (totalMs u0) (canceled u0) Active (promise u0) in
  match signal with
  | Some true =>
      match onAbort u0 with
      | (u, Some e) => (reject e u, false)
      | (u, None) => (u, false)
      end
  | Some false => (started, true)
  | None => (started, false)
  end.

(** What one firing of the interval callback reads from its environment:
    [Date.now() - start], the binary64 value of
    [Math.floor((elapsed / totalMs) * 100)], the outcome of the failure draw
    [Math.random() < 0.1 + Math.random() * 0.2], and the results of [uid()]
    and [URL.createObjectURL(file)]. *)
Record TickEnv := mkTickEnv {
  elapsed : Z;
  ratio100 : Z;
  fail : bool;
  new_uid : string;
  objectURL : string
}.

(** One firing of the interval callback; a cleared or uninitialised interval
    does not fire.  The second component lists the [onProgress] calls made,
    in order. *)
Definition tick (env : TickEnv) (u : Upload) : Upload * list Z :=
  match timer u with
  | Active =>
      if canceled u then (u, [])
      else
        let pct := Z.min 99 (ratio100 env) in
        if bool_decide (elapsed env >= totalMs u) then
          let u1 := mkUpload (totalMs u) (canceled u) Cleared (promise u) in
          if fail env then (reject (JsError NETWORK_ERROR) u1, [pct])
          else (resolve (new_uid env) (objectURL env) u1, [pct; 100])
        else (u, [pct])
  | _ => (u, [])
  end.

(** ** useUploadQueue.ts: the scheduler *)

Definition CONCURRENCY : Z := 3.

(** How far the chain [.then(..).catch(..).finally(..)] of a transfer has
    run. *)
Inductive Chain := Waiting | Handled | Finished.

#[global] Instance Chain_eq_dec : EqDecision Chain.
Proof. solve_decision. Defined.

(** One admitted transfer: the item id captured by its callbacks ([it.id]),
    the [AbortController] created for it ([aborted] flag of its signal and
    whether the [once] listener is still registered), the closure state of
    the [mockUpload] call, and the progress of the promise chain. *)
Record Transfer := mkTransfer {
  owner : string;
  aborted : bool;
  listening : bool;
  upload : Upload;
  chain : Chain
}.

(** [ctrl.abort()]: a no-op on an aborted signal, otherwise the flag is set
    and the listener, if any, runs once. *)
Definition abort (t : Transfer) : Transfer :=
  if aborted t then t
  else if listening t then
    mkTransfer (owner t) true false (fst (onAbort (upload t))) (chain t)
  else mkTransfer (owner t) true false (upload t) (chain t).

(** The state of the mounted component: the [items] state, the [alert]
    state, the [running] ref and the store of transfers. *)
Record World := mkWorld {
  items : list Item;
  alert : option string;
  running : Z;
  transfers : list Transfer
}.

Definition initial : World := mkWorld [] None 0 [].

(** [new AbortController()] followed by [mockUpload(it.file, .., ctrl.signal)]
    for the item with id [k]. *)
Definition launch (draw : Z) (k : string) : Transfer :=
  let '(u, l) := mockUpload draw (Some false) in
  mkTransfer k false l u Waiting.

(** [it.abortCtrl = ctrl; it.status = "uploading"] *)
Definition start_item (ctrl : nat) (it : Item) : Item :=
  mkItem (id it) (file it) (previewUrl it) (progress it) Uploading (error it)
         (serverUrl it) (Some ctrl).

(** The admission loop
    [for (let i = 0; i < next.length && started < available; i++)] over the
    items from position [i] on.  [draw n] is the random draw of the [n]-th
    [mockUpload] call of the session. *)
Fixpoint pump_loop (draw : nat → Z) (available started : Z)
    (rest : list Item) (run : Z) (trs : list Transfer)
  : list Item * Z * list Transfer :=
  match rest with
  | [] => ([], run, trs)
  | it :: rest' =>
      if bool_decide (started < available) then
        if decide (status it = Queued) then
          let ctrl := length trs in
          let it' := start_item ctrl it in
          let '(next, run', trs') :=
            pump_loop draw available (started + 1) rest' (run + 1)
                      (trs ++ [launch (draw ctrl) (id it)]) in
          (it' :: next, run', trs')
        else
          let '(next, run', trs') :=
            pump_loop draw available started rest' run trs in
          (it :: next, run', trs')
      else (rest, run, trs)
  end.

Definition pump (draw : nat → Z) (w : World) : World :=
  if bool_decide (running w >= CONCURRENCY) then w
  else
    let available := CONCURRENCY - running w in
    let '(next, run', trs') :=
      pump_loop draw available 0 (items w) (running w) (transfers w) in
    mkWorld next (alert w) run' trs'.

(** [cur.map((x) => (x.id === it.id ? f(x) : x))] *)
Definition update_id (k : string) (f : Item → Item) (cur : list Item) : list Item :=
  (λ x, if decide (id x = k) then f x else x) <$> cur.

(** The [onProgress] callback handed to [mockUpload] by [pump]. *)
Definition onProgress (k : string) (p : Z) : list Item → list Item :=
  update_id k (λ x, mkItem (id x) (file x) (previewUrl x) p (status x)
                           (error x) (serverUrl x) (abortCtrl x)).

(** The [.then] handler. *)
Definition on_fulfilled (k url : string) : list Item → list Item :=
  update_id k (λ x, mkItem (id x) (file x) (previewUrl x) 100 Success
                           (error x) (Some url) (abortCtrl x)).

Definition isAbort (err : Thrown) : bool :=
  match err with
  | DOMException _ nm => bool_decide (nm = "AbortError")
  | _ => false
  end.

(** [{ ...x, status: isAbort ? "canceled" : "error",
       error: isAbort ? undefined : (err as Error).message }] *)
Definition failed (err : Thrown) (x : Item) : Item :=
  mkItem (id x) (file x) (previewUrl x) (progress x)
         (if isAbort err then Canceled else Error)
         (if isAbort err then None else Some (message_of err))
         (serverUrl x) (abortCtrl x).

(** The [.catch] handler. *)
Definition on_rejected (k : string) (err : Thrown) : list Item → list Item :=
  update_id k (failed err).

(** The interval of transfer [n] fires. *)
Definition tick_transfer (n : nat) (env : TickEnv) (w : World) : World :=
  match transfers w !! n with
  | None => w
  | Some t =>
      let '(u, calls) := tick env (upload t) in
      mkWorld (foldl (λ cur p, onProgress (owner t) p cur) (items w) calls)
              (alert w) (running w)
              (<[n := mkTransfer (owner t) (aborted t) (listening t) u (chain t)]>
                 (transfers w))
  end.

(** The [.then] / [.catch] reaction of transfer [n] runs (the promise is
    settled and the reaction has not run yet). *)
Definition react (n : nat) (w : World) : World :=
  match transfers w !! n with
  | None => w
  | Some t =>
      if decide (chain t = Waiting) then
        let handled := mkTransfer (owner t) (aborted t) (listening t) (upload t) Handled in
        match promise (upload t) with
        | Pending => w
        | Fulfilled _ url =>
            mkWorld (on_fulfilled (owner t) url (items w)) (alert w) (running w)
                    (<[n := handled]> (transfers w))
        | Rejected err =>
            mkWorld (on_rejected (owner t) err (items w)) (alert w) (running w)
                    (<[n := handled]> (transfers w))
        end
      else w
  end.

(** The [.finally] reaction of transfer [n] runs: [running.current--].  Its
    [setTimeout(pump, 0)] is a later [pump]. *)
Definition finally (n : nat) (w : World) : World :=
  match transfers w !! n with
  | None => w
  | Some t =>
      if decide (chain t = Handled) then
        mkWorld (items w) (alert w) (running w - 1)
                (<[n := mkTransfer (owner t) (aborted t) (listening t) (upload t) Finished]>
                   (transfers w))
      else w
  end.

(** ** A11yUploader.tsx: the operations on the collection *)

(** [arr.map(f)] for a callback with an effect on the controller store. *)
Fixpoint map_store {S A B : Type} (f : A → S → B * S) (l : list A) (s : S)
  : list B * S :=
  match l with
  | [] => ([], s)
  | a :: l' =>
      let '(b, s1) := f a s in
      let '(bs, s2) := map_store f l' s1 in
      (b :: bs, s2)
  end.

(** [if (it.status === "uploading" && it.abortCtrl) it.abortCtrl.abort()] *)
Definition abort_if_uploading (it : Item) (trs : list Transfer) : list Transfer :=
  match abortCtrl it with
  | Some c => if decide (status it = Uploading) then alter abort c trs else trs
  | None => trs
  end.

Definition with_status (s : UploadStatus) (it : Item) : Item :=
  mkItem (id it) (file it) (previewUrl it) (progress it) s (error it)
         (serverUrl it) (abortCtrl it).

(** [{ ...it, status: "queued", progress: 0, error: undefined }] *)
Definition requeued (it : Item) : Item :=
  mkItem (id it) (file it) (previewUrl it) 0 Queued None (serverUrl it)
         (abortCtrl it).

Definition cancelItem (k : string) (w : World) : World :=
  let '(next, trs) :=
    map_store (λ it trs,
      if decide (id it ≠ k) then (it, trs)
      else (with_status Canceled it, abort_if_uploading it trs))
      (items w) (transfers w) in
  mkWorld next (alert w) (running w) trs.

Definition retryItem (k : string) (w : World) : World :=
  mkWorld ((λ it, if decide (id it = k) then requeued it else it) <$> items w)
          (alert w) (running w) (transfers w).

Definition removeItem (k : string) (w : World) : World :=
  mkWorld (filter (λ x, id x ≠ k) (items w)) (alert w) (running w) (transfers w).

Definition startAll (w : World) : World :=
  mkWorld ((λ it,
             if bool_decide (status it = Idle) || bool_decide (status it = Error)
                || bool_decide (status it = Canceled)
             then requeued it else it) <$> items w)
          (alert w) (running w) (transfers w).

Definition cancelAll (w : World) : World :=
  let '(next, trs) :=
    map_store (λ it trs,
      (with_status (if decide (status it = Success) then status it else Canceled) it,
       abort_if_uploading it trs))
      (items w) (transfers w) in
  mkWorld next (alert w) (running w) trs.

(** The [forEach] of [pushFiles] over the files that passed the duplicate
    filter; [fresh n] is the pair of [uid()] and [URL.createObjectURL(file)]
    obtained for the [n]-th item created by the call. *)
Definition fresh_item (fresh : nat → string * string) (n : nat) (f : File) : Item :=
  let '(uid, url) := fresh n in mkItem uid f url 0 Queued None None None.

Fixpoint collect (fresh : nat → string * string) (fs : list File)
    (toAdd : list Item) (errors : list string) : list Item * list string :=
  match fs with
  | [] => (toAdd, errors)
  | f :: fs' =>
      match validateFile f with
      | Some err => collect fresh fs' toAdd (errors ++ [name f +:+ ": " +:+ err])
      | None => collect fresh fs' (toAdd ++ [fresh_item fresh (length toAdd) f]) errors
      end
  end.

(** [errors.join("\n")] *)
Fixpoint join_lines (l : list string) : string :=
  match l with
  | [] => ""
  | [s] => s
  | s :: l' => s +:+ String (Ascii.ascii_of_nat 10) (join_lines l')
  end.

Definition not_duplicated (next : list Item) (f : File) : bool :=
  negb (existsb (λ x, isDuplicate f (file x)) next).

Definition pushFiles_items (fresh : nat → string * string) (arr : list File)
    (prev : list Item) : list Item * list string :=
  let next := prev in
  let remain := Z.max 0 (MAX_FILES - Z.of_nat (length next)) in
  let pick := take (Z.to_nat remain) arr in
  let dupFiltered := List.filter (not_duplicated next) pick in
  let '(toAdd, errors) := collect fresh dupFiltered [] [] in
  (next ++ toAdd, errors).

Definition pushFiles (fresh : nat → string * string) (arr : list File)
    (w : World) : World :=
  let '(next, errors) := pushFiles_items fresh arr (items w) in
  mkWorld next
          (if bool_decide (Z.of_nat (length errors) > 0)
           then Some (join_lines errors) else alert w)
          (running w) (transfers w).

(** ** utils.ts: the names [ACCEPT] and [MAX_SIZE_BYTES] *)

(** What the two free names of [validateFile] resolve to where the function
    runs: [None] for a name without binding, whose evaluation throws. *)
Record Scope := mkScope {
  scope_ACCEPT : option (list string);
  scope_MAX_SIZE_BYTES : option Z
}.

(** The modules as they stand: [utils.ts] declares and imports neither name,
    and no global of that name exists. *)
Definition utils_scope : Scope := mkScope None None.

(** The two names bound to the constants of [A11yUploader.tsx]. *)
Definition component_scope : Scope := mkScope (Some ACCEPT) (Some MAX_SIZE_BYTES).

(** The [ReferenceError] thrown by the evaluation of an unbound name (the
    wording of the message is the engine's). *)
Definition not_defined (x : string) : Thrown :=
  ReferenceError (x +:+ " is not defined").

(** [validateFile], statement by statement: each name is looked up when the
    statement that reads it is reached. *)
Definition validateFile_in (sc : Scope) (f : File) : Thrown + option string :=
  match scope_ACCEPT sc with
  | None => inl (not_defined "ACCEPT")
  | Some accept =>
      if negb (bool_decide (type f ∈ accept)) then
        inr (Some ("허용되지 않는 형식("
                   +:+ (if bool_decide (type f = "") then "unknown" else type f)
                   +:+ ")"))
      else
        match scope_MAX_SIZE_BYTES sc with
        | None => inl (not_defined "MAX_SIZE_BYTES")
        | Some limit =>
            if bool_decide (size f > limit) then
              inr (Some ("파일 용량 초과(" +:+ toFixed2_MB (size f) +:+ "MB)"))
            else inr None
        end
  end.

(** The [forEach] of [pushFiles]: an exception thrown by [validateFile]
    leaves the callback and the loop. *)
Fixpoint collect_in (sc : Scope) (fresh : nat → string * string) (fs : list File)
    (toAdd : list Item) (errors : list string)
  : Thrown + (list Item * list string) :=
  match fs with
  | [] => inr (toAdd, errors)
  | f :: fs' =>
      match validateFile_in sc f with
      | inl e => inl e
      | inr (Some err) =>
          collect_in sc fresh fs' toAdd (errors ++ [name f +:+ ": " +:+ err])
      | inr None =>
          collect_in sc fresh fs' (toAdd ++ [fresh_item fresh (length toAdd) f]) errors
      end
  end.

(** [pushFiles]: an exception leaves the updater before [setAlert] and the
    [return], so neither the collection nor the alert is replaced. *)
Definition pushFiles_in (sc : Scope) (fresh : nat → string * string)
    (arr : list File) (w : World) : Thrown + World :=
  let next := items w in
  let remain := Z.max 0 (MAX_FILES - Z.of_nat (length next)) in
  let pick := take (Z.to_nat remain) arr in
  let dupFiltered := List.filter (not_duplicated next) pick in
  match collect_in sc fresh dupFiltered [] [] with
  | inl e => inl e
  | inr (toAdd, errors) =>
      inr (mkWorld (next ++ toAdd)
                   (if bool_decide (Z.of_nat (length errors) > 0)
                    then Some (join_lines errors) else alert w)
                   (running w) (transfers w))
  end.

(** ** Sessions *)

(** Everything that can happen to the mounted component: a command of the
    user, a call of [pump] (from the effect or from a timeout), the firing of
    an interval, or a promise reaction. *)
Inductive Event :=
  | PushFiles (fresh : nat → string * string) (arr : list File)
  | CancelItem (k : string)
  | RetryItem (k : string)
  | RemoveItem (k : string)
  | StartAll
  | CancelAll
  | Pump (draw : nat → Z)
  | Tick (n : nat) (env : TickEnv)
  | React (n : nat)
  | Finally (n : nat).

Definition step (w : World) (e : Event) : World :=
  match e with
  | PushFiles fresh arr => pushFiles fresh arr w
  | CancelItem k => cancelItem k w
  | RetryItem k => retryItem k w
  | RemoveItem k => removeItem k w
  | StartAll => startAll w
  | CancelAll => cancelAll w
  | Pump draw => pump draw w
  | Tick n env => tick_transfer n env w
  | React n => react n w
  | Finally n => finally n w
  end.

(** The state after a session, from the freshly mounted component. *)
Definition session (evs : list Event) : World := foldl step initial evs.

(** [items.filter((i) => i.status === "uploading").length] *)
Definition uploadingCount (l : list Item) : Z :=
  Z.of_nat (length (filter (λ i, status i = Uploading) l)).

(** ** Notions used in the statements *)

(** The number of items in front of position [i] that wait in the queue. *)
Definition queuedBefore (i : nat) (l : list Item) : nat :=
  length (filter (λ x, status x = Queued) (take i l)).

(** The transfers whose [.finally] reaction has not run yet. *)
Definition inFlight (trs : list Transfer) : Z :=
  Z.of_nat (length (filter (λ t, chain t ≠ Finished) trs)).

(** The line that [pushFiles] reports for a file that fails validation. *)
Definition error_line (f : File) : option string :=
  (λ err, name f +:+ ": " +:+ err) <$> validateFile f.

(** The uploading items with id [k], and the transfers of owner [k] whose
    [.then] / [.catch] reaction has not run yet. *)
Definition uploadingOf (k : string) (l : list Item) : nat :=
  length (filter (λ x, status x = Uploading ∧ id x = k) l).

Definition waitingOf (k : string) (trs : list Transfer) : nat :=
  length (filter (λ t, chain t = Waiting ∧ owner t = k) trs).

(** Owner and chain stage are all the counts look at. *)
Definition tag (t : Transfer) : string * Chain := (owner t, chain t).

(** [running] counts the transfers whose [.finally] has not run, never more
    than [CONCURRENCY] of them; every uploading item is backed, id by id, by
    a transfer whose reaction has not run; the collection never outgrows
    [MAX_FILES]. *)
Record Inv (w : World) : Prop := mkInv {
  inv_running : running w = inFlight (transfers w);
  inv_bound : running w ≤ CONCURRENCY;
  inv_owned : ∀ k, (uploadingOf k (items w) ≤ waitingOf k (transfers w))%nat;
  inv_cap : Z.of_nat (length (items w)) ≤ MAX_FILES
}.

(** The events that do not put an item of id [k] back into the queue:
    everything but [startAll], a retry of [k], and an enqueue that hands out
    the id [k] again. *)
Definition quiet (k : string) (e : Event) : Prop :=
  match e with
  | PushFiles fresh _ => ∀ n, (fresh n).1 ≠ k
  | RetryItem k' => k' ≠ k
  | StartAll => False
  | _ => True
  end.

(** No transfer was ever launched for id [k], and the items of id [k] are
    canceled items taken unchanged from [base]. *)
Record Parked (k : string) (base : list Item) (w : World) : Prop := mkParked {
  parked_store : Forall (λ t, owner t ≠ k) (transfers w);
  parked_items : Forall (λ x, id x = k → x ∈ base ∧ status x = Canceled) (items w)
}.


(** ** Sample sessions *)

Definition png (nm : string) (bytes : Z) : File :=
  mkFile nm bytes 1700000000000 "image/png".

Definition sample_fresh (n : nat) : string * string :=
  ("item-" +:+ pretty n, "blob:preview-" +:+ pretty n).

(** Every upload lasts 800 ms. *)
Definition shortest : nat → Z := λ _, 0.

(** Firings of the interval 320 ms and 880 ms after the start. *)
Definition midway : TickEnv := mkTickEnv 320 40 false "k3x9q2ab" "blob:remote".
Definition completed : TickEnv := mkTickEnv 880 110 false "k3x9q2ab" "blob:remote".
Definition broken : TickEnv := mkTickEnv 880 110 true "k3x9q2ab" "blob:remote".

Definition file_a : File := png "a.png" 1024.
Definition file_b : File := png "b.png" 2048.
Definition file_c : File := png "c.png" 4096.
Definition file_d : File := png "d.png" 8192.

(** One file is enqueued, started, and half way through. *)
Definition uploading_a : list Event :=
  [PushFiles sample_fresh [file_a]; Pump shortest; Tick 0 midway].

(** ... and then completes. *)
Definition uploaded_a : list Event :=
  uploading_a ++ [Tick 0 completed; React 0; Finally 0].

(** ... or fails. *)
Definition failed_a : list Event :=
  uploading_a ++ [Tick 0 broken; React 0; Finally 0].

(** Four files are enqueued. *)
Definition four_files : list Event :=
  [PushFiles sample_fresh [file_a; file_b; file_c; file_d]].

(** The item of [uploading_a], and the item of [failed_a]. *)
Definition item_a_uploading : Item :=
  mkItem "item-0" file_a "blob:preview-0" 40 Uploading None None (Some 0%nat).

Definition item_a_failed : Item :=
  mkItem "item-0" file_a "blob:preview-0" 99 Error (Some NETWORK_ERROR) None
         (Some 0%nat).

(** ** Further notions *)

(** The items that wait in the queue. *)
Definition queuedCount (l : list Item) : nat :=
  length (filter (λ x, status x = Queued) l).

(** [pushFiles] turns a file down when it duplicates an item of the
    collection or fails validation. *)
Definition turned_down (prev : list Item) (f : File) : Prop :=
  not_duplicated prev f = false ∨ validateFile f ≠ None.

(** What identifies an item for the user: its id, its file and its
    preview. *)
Definition identity (x : Item) : string * File * string :=
  (id x, file x, previewUrl x).

(** The events that never hand out the id [k] to a new item. *)
Definition keeps_out (k : string) (e : Event) : Prop :=
  match e with
  | PushFiles fresh _ => ∀ n, (fresh n).1 ≠ k
  | _ => True
  end.

(** [{ ...x, progress: p }] *)
Definition with_progress (p : Z) (x : Item) : Item :=
  mkItem (id x) (file x) (previewUrl x) p (status x) (error x) (serverUrl x)
         (abortCtrl x).

(** [{ ...x, status: "success", serverUrl: url, progress: 100 }] *)
Definition succeeded (url : string) (x : Item) : Item :=
  mkItem (id x) (file x) (previewUrl x) 100 Success (error x) (Some url)
         (abortCtrl x).

(** The clock did not go backwards between the start of a transfer and the
    firing of its interval. *)
Definition clock_forward (e : Event) : Prop :=
  match e with
  | Tick _ env => 0 ≤ ratio100 env
  | _ => True
  end.

(** The fields that go with each status. *)
Definition fields_fit (x : Item) : Prop :=
  status x ≠ Idle
  ∧ (status x = Uploading → is_Some (abortCtrl x))
  ∧ (status x = Success → is_Some (serverUrl x))
  ∧ (status x = Error → is_Some (error x)).

(** The interval of a transfer fires. *)
Definition fire (env : TickEnv) (t : Transfer) : Transfer :=
  mkTransfer (owner t) (aborted t) (listening t) (tick env (upload t)).1 (chain t).

Definition with_chain (c : Chain) (t : Transfer) : Transfer :=
  mkTransfer (owner t) (aborted t) (listening t) (upload t) c.

(** What one event can do to a transfer of the store: nothing, abort its
    controller, fire its interval, run its [.then] / [.catch] reaction once
    the promise is settled, or run its [.finally] reaction after that. *)
Definition evolves (t t' : Transfer) : Prop :=
  t' = t
  ∨ t' = abort t
  ∨ (∃ env, t' = fire env t)
  ∨ (t' = with_chain Handled t ∧ chain t = Waiting ∧ promise (upload t) ≠ Pending)
  ∨ (t' = with_chain Finished t ∧ chain t = Handled).

(** The outcomes of a transfer: success, the network error, or an abort. *)
Definition outcome_known (p : Promise) : Prop :=
  match p with
  | Rejected e =>
      e = JsError NETWORK_ERROR ∨ e = DOMException "Aborted" "AbortError"
  | _ => True
  end.

(** A transfer is either running (interval active, promise pending, signal
    not aborted) or settled (interval cleared, promise settled); its listener
    is registered as long as its signal is not aborted; its reactions run
    only after it has settled. *)
Definition sound (t : Transfer) : Prop :=
  listening t = negb (aborted t)
  ∧ ((timer (upload t) = Active ∧ promise (upload t) = Pending
      ∧ canceled (upload t) = false ∧ aborted t = false)
     ∨ (timer (upload t) = Cleared ∧ promise (upload t) ≠ Pending))
  ∧ outcome_known (promise (upload t))
  ∧ (chain t ≠ Waiting → promise (upload t) ≠ Pending).

(** The controller handle of an item, if it has one, is a cell of the store
    that holds a transfer launched for the item's id. *)
Definition handle_valid (trs : list Transfer) (x : Item) : Prop :=
  ∀ c : nat, abortCtrl x = Some c → ∃ t, trs !! c = Some t ∧ owner t = id x.

(** ** Further sample data *)

(** A PNG of 5 MiB and one byte, and a GIF. *)
Definition file_big : File := png "big.png" 5242881.
Definition file_gif : File := mkFile "anim.gif" 512 1700000000000 "image/gif".

(** The transfer of [uploading_a], and the same transfer once the upload has
    completed and its reactions have run. *)
Definition transfer_a_running : Transfer :=
  mkTransfer "item-0" false true (mkUpload 800 false Active Pending) Waiting.

Definition transfer_a_done : Transfer :=
  mkTransfer "item-0" false true
    (mkUpload 800 false Cleared (Fulfilled "k3x9q2ab" "blob:remote")) Finished.

(** * Properties *)

(** ** The admission loop *)

Section pump_loop.
Variable draw : nat → Z.
Variable available : Z.

Lemma queuedBefore_cons_queued i it l :
  status it = Queued → queuedBefore (S i) (it :: l) = S (queuedBefore i l).
Proof.
  intros Hq. unfold queuedBefore. simpl. by rewrite filter_cons_True.
Qed.

Lemma queuedBefore_cons_other i it l :
  status it ≠ Queued → queuedBefore (S i) (it :: l) = queuedBefore i l.
Proof.
  intros Hq. unfold queuedBefore. simpl. by rewrite filter_cons_False.
Qed.

(** The loop rewrites the collection position by position: the item at
    position [i] is started exactly when it is queued and the budget has
    not been used up by the queued items in front of it; its controller is
    the next free handle after theirs. *)
Lemma pump_loop_lookup rest : ∀ started run trs next run' trs',
  pump_loop draw available started rest run trs = (next, run', trs') →
  ∀ i a, rest !! i = Some a →
    next !! i =
      Some (if bool_decide (status a = Queued
                            ∧ started + Z.of_nat (queuedBefore i rest) < available)
            then start_item (length trs + queuedBefore i rest) a else a).
Proof.
  induction rest as [|it rest IH]; intros started run trs next run' trs' Hloop i a Hi.
  { done. }
  simpl in Hloop. case_bool_decide as Hbudget.
  - destruct (decide (status it = Queued)) as [Hq|Hq].
    + destruct (pump_loop _ _ _ rest _ _) as [[nx r] ts] eqn:Hrec.
      inversion Hloop; subst; clear Hloop.
      destruct i as [|i]; simpl in *.
      * inversion Hi; subst. rewrite bool_decide_true.
        -- by rewrite Nat.add_0_r.
        -- unfold queuedBefore; simpl. split; [done|lia].
      * rewrite (IH _ _ _ _ _ _ Hrec i a Hi).
        rewrite queuedBefore_cons_queued by done.
        rewrite length_app. simpl.
        replace (length trs + 1 + queuedBefore i rest)%nat
          with (length trs + S (queuedBefore i rest))%nat by lia.
        by replace (started + 1 + Z.of_nat (queuedBefore i rest))
          with (started + Z.of_nat (S (queuedBefore i rest))) by lia.
    + destruct (pump_loop _ _ _ rest _ _) as [[nx r] ts] eqn:Hrec.
      inversion Hloop; subst; clear Hloop.
      destruct i as [|i]; simpl in *.
      * inversion Hi; subst. rewrite bool_decide_false; [done|]. tauto.
      * rewrite (IH _ _ _ _ _ _ Hrec i a Hi).
        by rewrite queuedBefore_cons_other.
  - inversion Hloop; subst; clear Hloop. rewrite Hi.
    rewrite bool_decide_false; [done|]. lia.
Qed.

Lemma launch_owner d k : owner (launch d k) = k.
Proof. done. Qed.

Lemma launch_chain d k : chain (launch d k) = Waiting.
Proof. done. Qed.

(** The loop keeps the length of the collection, only ever appends to the
    store, and counts every transfer it starts in [running]. *)
Lemma pump_loop_account rest : ∀ started run trs next run' trs',
  pump_loop draw available started rest run trs = (next, run', trs') →
  length next = length rest
  ∧ run ≤ run'
  ∧ started + (run' - run) ≤ Z.max started available
  ∧ (∃ new, trs' = trs ++ new ∧ Z.of_nat (length new) = run' - run)
  ∧ inFlight trs' = inFlight trs + (run' - run)
  ∧ (started + (run' - run) < available →
     Forall (λ x, status x ≠ Queued) next).
Proof.
  induction rest as [|it rest IH]; intros started run trs next run' trs' Hloop;
    simpl in Hloop.
  { inversion Hloop; subst. repeat split; try lia.
    - exists []. rewrite app_nil_r. split; [done|simpl; lia].
    - constructor. }
  case_bool_decide as Hbudget.
  - destruct (decide (status it = Queued)) as [Hq|Hq];
      destruct (pump_loop _ _ _ rest _ _) as [[nx r] ts] eqn:Hrec;
      inversion Hloop; subst; clear Hloop;
      destruct (IH _ _ _ _ _ _ Hrec) as (Hlen & Hle & Hcap & (new & -> & Hnew) & Hfl & Hq').
    + repeat split; simpl; try lia.
      * exists (launch (draw (length trs)) (id it) :: new).
        rewrite <- app_assoc. split; [done|]. simpl. lia.
      * rewrite Hfl. unfold inFlight. rewrite filter_app, length_app.
        rewrite filter_cons_True by (by rewrite launch_chain). simpl. lia.
      * intros Hlt. constructor; [done|]. apply Hq'. lia.
    + repeat split; simpl; try lia.
      * by exists new.
      * intros Hlt. constructor; [done|]. by apply Hq'.
  - inversion Hloop; subst; clear Hloop. repeat split; try lia.
    exists []. rewrite app_nil_r. split; [done|simpl; lia].
Qed.

(** Per item id, the loop adds as many uploading items as it adds waiting
    transfers. *)
Lemma pump_loop_counts rest : ∀ started run trs next run' trs',
  pump_loop draw available started rest run trs = (next, run', trs') →
  ∀ k, (uploadingOf k next + waitingOf k trs
        = uploadingOf k rest + waitingOf k trs')%nat.
Proof.
  induction rest as [|it rest IH]; intros started run trs next run' trs' Hloop k;
    simpl in Hloop.
  { by inversion Hloop. }
  case_bool_decide as Hbudget.
  - destruct (decide (status it = Queued)) as [Hq|Hq];
      destruct (pump_loop _ _ _ rest _ _) as [[nx r] ts] eqn:Hrec;
      inversion Hloop; subst; clear Hloop;
      specialize (IH _ _ _ _ _ _ Hrec k).
    + unfold uploadingOf, waitingOf in *.
      rewrite filter_app, length_app in IH.
      rewrite (filter_cons_False _ it) by (rewrite Hq; by intros [? _]).
      destruct (decide (id it = k)) as [Hk|Hk].
      * rewrite filter_cons_True by done.
        rewrite filter_cons_True in IH by done. simpl in *. lia.
      * rewrite filter_cons_False by (by intros [_ ?]).
        rewrite filter_cons_False in IH by (by intros [_ ?]). simpl in *. lia.
    + unfold uploadingOf in *. simpl.
      destruct (decide (status it = Uploading ∧ id it = k)).
      * rewrite !filter_cons_True by done. simpl. lia.
      * by rewrite !filter_cons_False by done.
  - by inversion Hloop.
Qed.

(** A collection without queued items goes through the loop unchanged. *)
Lemma pump_loop_nothing_queued rest : ∀ started run trs,
  Forall (λ x, status x ≠ Queued) rest →
  pump_loop draw available started rest run trs = (rest, run, trs).
Proof.
  induction rest as [|it rest IH]; intros started run trs Hall; [done|].
  inversion Hall; subst. simpl.
  case_bool_decide; [|done].
  destruct (decide (status it = Queued)); [done|].
  by rewrite IH.
Qed.

(** The controller handle written into a started item is the cell of the
    transfer launched for it. *)
Lemma pump_loop_store rest : ∀ started run trs next run' trs',
  pump_loop draw available started rest run trs = (next, run', trs') →
  ∀ i a, rest !! i = Some a → status a = Queued →
    started + Z.of_nat (queuedBefore i rest) < available →
    let c := (length trs + queuedBefore i rest)%nat in
    trs' !! c = Some (launch (draw c) (id a)).
Proof.
  induction rest as [|it rest IH];
    intros started run trs next run' trs' Hloop i a Hi Hqa Hlt; [done|].
  simpl in Hloop. case_bool_decide as Hbudget; [|lia].
  destruct (decide (status it = Queued)) as [Hq|Hq];
    destruct (pump_loop _ _ _ rest _ _) as [[nx r] ts] eqn:Hrec;
    inversion Hloop; subst; clear Hloop.
  - destruct i as [|i]; simpl in Hi.
    + inversion Hi; subst.
      destruct (pump_loop_account _ _ _ _ _ _ _ Hrec)
        as (_ & _ & _ & (new & -> & _) & _).
      unfold queuedBefore; simpl. rewrite Nat.add_0_r.
      rewrite <- app_assoc. by apply list_lookup_middle.
    + rewrite queuedBefore_cons_queued in * by done.
      specialize (IH _ _ _ _ _ _ Hrec i a Hi Hqa).
      rewrite length_app in IH. simpl in IH.
      replace (length trs + S (queuedBefore i rest))%nat
        with (length trs + 1 + queuedBefore i rest)%nat by lia.
      apply IH. lia.
  - destruct i as [|i]; simpl in Hi.
    + inversion Hi; by subst.
    + rewrite queuedBefore_cons_other in * by done.
      by apply (IH _ _ _ _ _ _ Hrec i a Hi Hqa).
Qed.
End pump_loop.

(** ** [pump] *)

Lemma pump_lookup draw w i a :
  items w !! i = Some a →
  items (pump draw w) !! i =
    Some (if bool_decide (status a = Queued
                          ∧ running w + Z.of_nat (queuedBefore i (items w)) < CONCURRENCY)
          then start_item (length (transfers w) + queuedBefore i (items w)) a
          else a).
Proof.
  intros Hi. unfold pump. case_bool_decide as Hfull.
  - rewrite bool_decide_false; [done|]. lia.
  - destruct (pump_loop _ _ _ _ _ _) as [[next run'] trs'] eqn:Hloop. simpl.
    rewrite (pump_loop_lookup _ _ _ _ _ _ _ _ _ Hloop i a Hi).
    f_equal. apply (f_equal (λ b : bool, if b then _ else _)).
    apply bool_decide_ext. split; intros [? ?]; split; (done || lia).
Qed.

Lemma pump_store draw w i a :
  items w !! i = Some a → status a = Queued →
  running w + Z.of_nat (queuedBefore i (items w)) < CONCURRENCY →
  let c := (length (transfers w) + queuedBefore i (items w))%nat in
  transfers (pump draw w) !! c = Some (launch (draw c) (id a)).
Proof.
  intros Hi Hq Hlt. unfold pump. rewrite bool_decide_false by lia.
  destruct (pump_loop _ _ _ _ _ _) as [[next run'] trs'] eqn:Hloop. simpl.
  apply (pump_loop_store _ _ _ _ _ _ _ _ _ Hloop i a Hi Hq). lia.
Qed.


(** C6 — [pump] is idempotent: a second [pump] right after a first one,
    whatever the random draws, returns the very same state: no status
    changes, no new controller, no further [mockUpload] call, the same
    [running]. *)
Theorem pump_idempotent (d1 d2 : nat → Z) (w : World) :
  pump d2 (pump d1 w) = pump d1 w.
Proof.
  destruct (decide (running w >= CONCURRENCY)) as [Hfull|Hfull].
  { assert (∀ d, pump d w = w) as Hstay
      by (intros d; unfold pump; by rewrite bool_decide_true).
    by rewrite !Hstay. }
  destruct (pump_loop d1 (CONCURRENCY - running w) 0 (items w) (running w)
              (transfers w)) as [[next run'] trs'] eqn:Hloop.
  assert (pump d1 w = mkWorld next (alert w) run' trs') as ->.
  { unfold pump. rewrite bool_decide_false by done. by rewrite Hloop. }
  destruct (pump_loop_account _ _ _ _ _ _ _ _ _ Hloop)
    as (_ & _ & _ & _ & _ & Hscan).
  unfold pump. simpl. case_bool_decide as Hfull'; [done|].
  rewrite pump_loop_nothing_queued; [done|]. apply Hscan. lia.
Qed.


(** ** Counting by key *)

Section counting.
Context {A B : Type} (P : A → Prop) (Q : B → Prop).
Context `{!∀ x, Decision (P x)} `{!∀ y, Decision (Q y)}.
Context (f : A → string) (g : B → string).

Lemma length_filter_middle (R : B → Prop) `{!∀ y, Decision (R y)} m1 y m2 :
  length (filter R (m1 ++ y :: m2))
  = (length (filter R (m1 ++ m2)) + (if decide (R y) then 1 else 0))%nat.
Proof.
  rewrite !filter_app, !length_app.
  destruct (decide (R y)).
  - rewrite filter_cons_True by done. simpl. lia.
  - rewrite filter_cons_False by done. lia.
Qed.

(** If, key by key, there are no more [P]-elements in [l] than
    [Q]-elements in [m], then there are no more of them in total. *)
Lemma length_filter_by_key l : ∀ m,
  (∀ k, length (filter (λ x, P x ∧ f x = k) l)
        ≤ length (filter (λ y, Q y ∧ g y = k) m))%nat →
  (length (filter P l) ≤ length (filter Q m))%nat.
Proof.
  induction l as [|x l IH]; intros m Hkeys; [simpl; lia|].
  destruct (decide (P x)) as [HP|HP].
  - rewrite filter_cons_True by done. simpl.
    pose proof (Hkeys (f x)) as Hx.
    rewrite filter_cons_True in Hx by done. simpl in Hx.
    destruct (filter (λ y, Q y ∧ g y = f x) m) as [|y ys] eqn:Hy;
      [simpl in Hx; lia|].
    assert (y ∈ filter (λ y, Q y ∧ g y = f x) m) as Hin
      by (rewrite Hy; left).
    apply list_elem_of_filter in Hin as [[HQ Hg] Hin].
    apply list_elem_of_split in Hin as (m1 & m2 & ->).
    rewrite length_filter_middle, decide_True by done.
    assert (length (filter P l) ≤ length (filter Q (m1 ++ m2)))%nat; [|lia].
    apply IH. intros k. specialize (Hkeys k).
    rewrite length_filter_middle in Hkeys.
    destruct (decide (f x = k)) as [Hk|Hk].
    + rewrite filter_cons_True in Hkeys by done.
      rewrite decide_True in Hkeys by (split; congruence).
      simpl in Hkeys. lia.
    + rewrite filter_cons_False in Hkeys by (by intros [_ ?]).
      rewrite decide_False in Hkeys by (intros [_ ?]; congruence). lia.
  - rewrite filter_cons_False by done. apply IH. intros k.
    specialize (Hkeys k).
    by rewrite filter_cons_False in Hkeys by (by intros [? _]).
Qed.
End counting.

(** Replacing the element at a position changes a count by what the old and
    the new element contribute. *)
Lemma length_filter_insert {B} (R : B → Prop) `{!∀ y, Decision (R y)}
    (m : list B) n y y' :
  m !! n = Some y →
  (length (filter R (<[n := y']> m)) + (if decide (R y) then 1 else 0)
   = length (filter R m) + (if decide (R y') then 1 else 0))%nat.
Proof.
  intros Hn.
  rewrite insert_take_drop by by eapply lookup_lt_Some.
  rewrite <- (take_drop_middle m n y Hn) at 3.
  rewrite !length_filter_middle. lia.
Qed.

(** ** What the operations do to the counts *)

Lemma length_filter_fmap {A B} (h : A → B) (R : B → Prop)
    `{!∀ y, Decision (R y)} (l : list A) :
  length (filter (λ x, R (h x)) l) = length (filter R (h <$> l)).
Proof.
  induction l as [|x l IH]; simpl; [done|].
  destruct (decide (R (h x))).
  - rewrite !filter_cons_True by done. simpl. by rewrite IH.
  - by rewrite !filter_cons_False by done.
Qed.

Lemma waitingOf_tag k trs :
  waitingOf k trs = length (filter (λ p, p.2 = Waiting ∧ p.1 = k) (tag <$> trs)).
Proof.
  unfold waitingOf.
  by rewrite <- (length_filter_fmap tag (λ p, p.2 = Waiting ∧ p.1 = k)).
Qed.

Lemma inFlight_tag trs :
  inFlight trs = Z.of_nat (length (filter (λ p, p.2 ≠ Finished) (tag <$> trs))).
Proof.
  unfold inFlight.
  by rewrite <- (length_filter_fmap tag (λ p, p.2 ≠ Finished)).
Qed.

Lemma tag_abort t : tag (abort t) = tag t.
Proof. unfold abort. by repeat case_match. Qed.

Lemma tag_alter_abort (c : nat) (trs : list Transfer) :
  tag <$> alter abort c trs = tag <$> trs.
Proof.
  revert c. induction trs as [|t trs IH]; intros [|c]; simpl; try done.
  - by rewrite tag_abort.
  - f_equal. apply IH.
Qed.

Lemma tag_abort_if_uploading it trs :
  tag <$> abort_if_uploading it trs = tag <$> trs.
Proof.
  unfold abort_if_uploading. repeat case_match; try done. apply tag_alter_abort.
Qed.

Lemma tag_insert_same (n : nat) t t' (trs : list Transfer) :
  trs !! n = Some t → tag t' = tag t → tag <$> <[n := t']> trs = tag <$> trs.
Proof.
  intros Hn Ht. rewrite list_fmap_insert, Ht.
  apply list_insert_id. by rewrite list_lookup_fmap, Hn.
Qed.

(** A [map] callback whose result does not depend on the store splits into
    a pure map and a fold of its effects. *)
Lemma map_store_split {S A B} (f : A → S → B * S) (g : A → B) (h : A → S → S) l :
  (∀ a s, f a s = (g a, h a s)) →
  ∀ s, map_store f l s = (g <$> l, foldl (λ s a, h a s) s l).
Proof.
  intros Hf. induction l as [|a l IH]; intros s; simpl; [done|].
  by rewrite Hf, IH.
Qed.

Lemma tag_foldl {A} (h : A → list Transfer → list Transfer) l :
  (∀ a s, tag <$> h a s = tag <$> s) →
  ∀ trs, tag <$> foldl (λ s a, h a s) trs l = tag <$> trs.
Proof.
  intros Hh. induction l as [|a l IH]; intros trs; simpl; [done|].
  by rewrite IH, Hh.
Qed.

Lemma waitingOf_same_tags k trs trs' :
  tag <$> trs' = tag <$> trs → waitingOf k trs' = waitingOf k trs.
Proof. intros Ht. by rewrite !waitingOf_tag, Ht. Qed.

Lemma inFlight_same_tags trs trs' :
  tag <$> trs' = tag <$> trs → inFlight trs' = inFlight trs.
Proof. intros Ht. by rewrite !inFlight_tag, Ht. Qed.

(** A map that keeps ids and never makes an item uploading can only lower
    the counts. *)
Lemma uploadingOf_fmap_le k (g : Item → Item) l :
  (∀ x, id (g x) = id x) →
  (∀ x, status (g x) = Uploading → status x = Uploading) →
  (uploadingOf k (g <$> l) ≤ uploadingOf k l)%nat.
Proof.
  intros Hid Hst. unfold uploadingOf.
  induction l as [|x l IH]; [simpl; lia|]. rewrite fmap_cons.
  destruct (decide (status (g x) = Uploading ∧ id (g x) = k)) as [[H1 H2]|H].
  - rewrite !filter_cons_True; [cbn [length]; lia| |done].
    split; [by apply Hst|by rewrite <- Hid].
  - rewrite (filter_cons_False _ (g x)) by done.
    destruct (decide (status x = Uploading ∧ id x = k)).
    + rewrite filter_cons_True by done. cbn [length]. lia.
    + by rewrite filter_cons_False by done.
Qed.

Lemma uploadingOf_filter_le k (R : Item → Prop) `{!∀ x, Decision (R x)} l :
  (uploadingOf k (filter R l) ≤ uploadingOf k l)%nat.
Proof.
  unfold uploadingOf. induction l as [|x l IH]; simpl; [lia|].
  destruct (decide (R x)).
  - rewrite (filter_cons_True R) by done.
    destruct (decide (status x = Uploading ∧ id x = k)).
    + rewrite !filter_cons_True by done. simpl. lia.
    + by rewrite !filter_cons_False by done.
  - rewrite (filter_cons_False R) by done.
    destruct (decide (status x = Uploading ∧ id x = k)).
    + rewrite filter_cons_True by done. simpl. lia.
    + by rewrite filter_cons_False by done.
Qed.

Lemma uploadingOf_app_queued k l new :
  Forall (λ y, status y = Queued) new →
  uploadingOf k (l ++ new) = uploadingOf k l.
Proof.
  intros Hnew. unfold uploadingOf. rewrite filter_app, length_app.
  assert (filter (λ x, status x = Uploading ∧ id x = k) new = []) as ->;
    [|simpl; lia].
  induction Hnew as [|y new Hy _ IH]; [done|].
  rewrite filter_cons_False; [done|]. rewrite Hy. by intros [? _].
Qed.

(** An update by id keeps the items of every other id. *)
Lemma uploadingOf_update_other k k0 f l :
  (∀ x, id (f x) = id x) → k ≠ k0 →
  uploadingOf k (update_id k0 f l) = uploadingOf k l.
Proof.
  intros Hid Hk. unfold uploadingOf, update_id.
  induction l as [|x l IH]; [done|]. rewrite fmap_cons.
  destruct (decide (id x = k0)) as [Hx|Hx].
  - rewrite !filter_cons_False; [done| |].
    + intros [_ ?]. congruence.
    + rewrite Hid. intros [_ ?]. congruence.
  - destruct (decide (status x = Uploading ∧ id x = k)).
    + rewrite !filter_cons_True by done. cbn [length]. by rewrite IH.
    + by rewrite !filter_cons_False by done.
Qed.

(** An update by id that settles the item leaves none of that id
    uploading. *)
Lemma uploadingOf_update_settled k f l :
  (∀ x, status (f x) ≠ Uploading) →
  uploadingOf k (update_id k f l) = 0%nat.
Proof.
  intros Hst. unfold uploadingOf, update_id.
  induction l as [|x l IH]; [done|]. rewrite fmap_cons.
  rewrite filter_cons_False; [done|].
  destruct (decide (id x = k)); [intros [? _]; by eapply Hst|by intros [_ ?]].
Qed.

(** ** [pushFiles] *)

Lemma collect_spec fresh fs : ∀ toAdd errors,
  collect fresh fs toAdd errors
  = (toAdd ++ imap (λ n, fresh_item fresh (length toAdd + n))
                   (filter (λ f, validateFile f = None) fs),
     errors ++ omap error_line fs).
Proof.
  induction fs as [|f fs IH]; intros toAdd errors; simpl.
  { by rewrite !app_nil_r. }
  unfold error_line at 1. destruct (validateFile f) as [err|] eqn:Hv; simpl.
  - rewrite filter_cons_False by (by rewrite Hv).
    by rewrite IH, <- app_assoc.
  - rewrite filter_cons_True by done.
    rewrite IH, <- app_assoc, length_app. simpl.
    rewrite Nat.add_0_r. do 3 f_equal.
    apply imap_ext. intros n x _. simpl. f_equal. lia.
Qed.

(** What [pushFiles] computes: the first [remain] files are looked at; of
    these, the ones that duplicate an item already in the collection are
    dropped; of the rest, the valid ones become queued items at the end of
    the collection and the others give one error line each. *)
Lemma pushFiles_items_spec fresh arr prev :
  let remain := Z.to_nat (Z.max 0 (MAX_FILES - Z.of_nat (length prev))) in
  let dupFiltered := List.filter (not_duplicated prev) (take remain arr) in
  pushFiles_items fresh arr prev
  = (prev ++ imap (fresh_item fresh) (filter (λ f, validateFile f = None) dupFiltered),
     omap error_line dupFiltered).
Proof.
  intros remain dupFiltered. unfold pushFiles_items.
  fold remain. fold dupFiltered. by rewrite collect_spec.
Qed.

Lemma fresh_item_queued fresh n f : status (fresh_item fresh n f) = Queued.
Proof. unfold fresh_item. by destruct (fresh n). Qed.

Lemma fresh_item_file fresh n f : file (fresh_item fresh n f) = f.
Proof. unfold fresh_item. by destruct (fresh n). Qed.

Lemma pushFiles_items_length fresh arr prev :
  Z.of_nat (length (pushFiles_items fresh arr prev).1)
  ≤ Z.max MAX_FILES (Z.of_nat (length prev)).
Proof.
  rewrite pushFiles_items_spec. simpl.
  rewrite length_app, length_imap.
  etrans; [apply inj_le, Nat.add_le_mono_l, length_filter|].
  etrans; [apply inj_le, Nat.add_le_mono_l, List.filter_length_le|].
  rewrite length_take. unfold MAX_FILES. lia.
Qed.

(** ** The invariant of the scheduler *)

Lemma Inv_initial : Inv initial.
Proof. by split. Qed.

(** Operations that map over the collection without starting anything, and
    touch the store only through [abort], keep the invariant. *)
Lemma Inv_settle_only w next trs :
  Inv w →
  (∀ k, uploadingOf k next ≤ uploadingOf k (items w))%nat →
  (length next ≤ length (items w))%nat →
  tag <$> trs = tag <$> transfers w →
  Inv (mkWorld next (alert w) (running w) trs).
Proof.
  intros [Hrun Hbound Howned Hcap] Hup Hlen Htag. split; simpl.
  - by rewrite (inFlight_same_tags _ _ Htag).
  - done.
  - intros k. rewrite (waitingOf_same_tags _ _ _ Htag).
    etrans; [apply Hup|apply Howned].
  - lia.
Qed.

Lemma Inv_pushFiles fresh arr w : Inv w → Inv (pushFiles fresh arr w).
Proof.
  intros [Hrun Hbound Howned Hcap]. unfold pushFiles.
  pose proof (pushFiles_items_length fresh arr (items w)) as Hlen.
  pose proof (pushFiles_items_spec fresh arr (items w)) as Hspec. simpl in Hspec.
  destruct (pushFiles_items fresh arr (items w)) as [next errors].
  inversion Hspec; subst; clear Hspec. split; simpl in *; try done.
  - intros k. rewrite uploadingOf_app_queued; [done|].
    apply Forall_lookup_2. intros i y Hy.
    rewrite list_lookup_imap in Hy.
    destruct (_ !! i); simplify_eq/=. apply fresh_item_queued.
  - lia.
Qed.

Lemma Inv_cancelItem k w : Inv w → Inv (cancelItem k w).
Proof.
  intros HI. unfold cancelItem.
  rewrite (map_store_split _
             (λ it, if decide (id it ≠ k) then it else with_status Canceled it)
             (λ it trs, if decide (id it ≠ k) then trs
                        else abort_if_uploading it trs))
    by (intros; by case_decide).
  apply Inv_settle_only; [done| | |].
  - intros k'. apply uploadingOf_fmap_le; intros x; by case_decide.
  - by rewrite length_fmap.
  - apply tag_foldl. intros a s. case_decide; [done|].
    apply tag_abort_if_uploading.
Qed.

Lemma Inv_cancelAll w : Inv w → Inv (cancelAll w).
Proof.
  intros HI. unfold cancelAll.
  rewrite (map_store_split _
             (λ it, with_status
                      (if decide (status it = Success) then status it else Canceled) it)
             abort_if_uploading) by done.
  apply Inv_settle_only; [done| | |].
  - intros k'. apply uploadingOf_fmap_le; intros x; [done|].
    simpl. case_decide; [done|]. discriminate.
  - by rewrite length_fmap.
  - apply tag_foldl, tag_abort_if_uploading.
Qed.

Lemma Inv_retryItem k w : Inv w → Inv (retryItem k w).
Proof.
  intros HI. apply Inv_settle_only; [done| | |done].
  - intros k'. apply uploadingOf_fmap_le; intros x; by case_decide.
  - by rewrite length_fmap.
Qed.

Lemma Inv_startAll w : Inv w → Inv (startAll w).
Proof.
  intros HI. apply Inv_settle_only; [done| | |done].
  - intros k'. apply uploadingOf_fmap_le; intros x; by case_match.
  - by rewrite length_fmap.
Qed.

Lemma Inv_removeItem k w : Inv w → Inv (removeItem k w).
Proof.
  intros HI. apply Inv_settle_only; [done| | |done].
  - intros k'. apply uploadingOf_filter_le.
  - apply length_filter.
Qed.

Lemma Inv_pump draw w : Inv w → Inv (pump draw w).
Proof.
  intros [Hrun Hbound Howned Hcap]. unfold pump.
  case_bool_decide as Hfull; [by split|].
  destruct (pump_loop _ _ _ _ _ _) as [[next run'] trs'] eqn:Hloop.
  destruct (pump_loop_account _ _ _ _ _ _ _ _ _ Hloop)
    as (Hlen & Hle & Hbudget & _ & Hfl & _).
  split; simpl.
  - lia.
  - lia.
  - intros k. pose proof (pump_loop_counts _ _ _ _ _ _ _ _ _ Hloop k).
    specialize (Howned k). lia.
  - by rewrite Hlen.
Qed.

Lemma uploadingOf_fmap_same k (g : Item → Item) l :
  (∀ x, id (g x) = id x) → (∀ x, status (g x) = status x) →
  uploadingOf k (g <$> l) = uploadingOf k l.
Proof.
  intros Hid Hst. unfold uploadingOf.
  induction l as [|x l IH]; [done|]. rewrite fmap_cons.
  destruct (decide (status x = Uploading ∧ id x = k)) as [Hx|Hx].
  - rewrite (filter_cons_True _ x) by done.
    rewrite (filter_cons_True _ (g x)) by (by rewrite Hid, Hst).
    cbn [length]. by rewrite IH.
  - rewrite (filter_cons_False _ x) by done.
    by rewrite (filter_cons_False _ (g x)) by (by rewrite Hid, Hst).
Qed.

Lemma onProgress_calls_uploadingOf k k0 calls : ∀ cur,
  uploadingOf k (foldl (λ cur p, onProgress k0 p cur) cur calls) = uploadingOf k cur
  ∧ length (foldl (λ cur p, onProgress k0 p cur) cur calls) = length cur.
Proof.
  induction calls as [|p calls IH]; intros cur; simpl; [done|].
  destruct (IH (onProgress k0 p cur)) as [-> ->]. unfold onProgress, update_id.
  split; [|by rewrite length_fmap].
  apply uploadingOf_fmap_same; intros x; by case_decide.
Qed.

Lemma Inv_tick n env w : Inv w → Inv (tick_transfer n env w).
Proof.
  intros HI. unfold tick_transfer.
  destruct (transfers w !! n) as [t|] eqn:Hn; [|done].
  destruct (tick env (upload t)) as [u calls].
  destruct (onProgress_calls_uploadingOf "" (owner t) calls (items w)) as [_ Hlen].
  apply Inv_settle_only; [done| | |].
  - intros k.
    by destruct (onProgress_calls_uploadingOf k (owner t) calls (items w)) as [-> _].
  - by rewrite Hlen.
  - by eapply tag_insert_same.
Qed.

Lemma Inv_react n w : Inv w → Inv (react n w).
Proof.
  intros HI. unfold react.
  destruct (transfers w !! n) as [t|] eqn:Hn; [|done].
  case_decide as Hchain; [|done].
  assert (∀ next,
    (∀ k, k ≠ owner t → uploadingOf k next = uploadingOf k (items w)) →
    uploadingOf (owner t) next = 0%nat →
    length next = length (items w) →
    Inv (mkWorld next (alert w) (running w)
           (<[n := mkTransfer (owner t) (aborted t) (listening t) (upload t) Handled]>
              (transfers w)))) as Hgoal.
  { intros next Hother Hmine Hlen. destruct HI as [Hrun Hbound Howned Hcap].
    split; simpl; [|done| |lia].
    - rewrite Hrun. unfold inFlight. f_equal.
      pose proof (length_filter_insert (λ t, chain t ≠ Finished) _ n t
                    (mkTransfer (owner t) (aborted t) (listening t) (upload t) Handled)
                    Hn) as Hcount.
      simpl in Hcount. rewrite !decide_True in Hcount by congruence. lia.
    - intros k. destruct (decide (k = owner t)) as [->|Hk]; [rewrite Hmine; lia|].
      rewrite (Hother k Hk). specialize (Howned k). unfold waitingOf in *.
      pose proof (length_filter_insert (λ t, chain t = Waiting ∧ owner t = k) _ n t
                    (mkTransfer (owner t) (aborted t) (listening t) (upload t) Handled)
                    Hn) as Hcount.
      simpl in Hcount. rewrite !decide_False in Hcount by (intros [_ ?]; congruence).
      lia. }
  destruct (promise (upload t)) as [|rid url|err]; [done| |]; apply Hgoal.
  - intros k Hk. by apply uploadingOf_update_other.
  - by apply uploadingOf_update_settled.
  - unfold on_fulfilled, update_id. by rewrite length_fmap.
  - intros k Hk. by apply uploadingOf_update_other.
  - apply uploadingOf_update_settled. intros x. simpl. by case_match.
  - unfold on_rejected, update_id. by rewrite length_fmap.
Qed.

Lemma Inv_finally n w : Inv w → Inv (finally n w).
Proof.
  intros [Hrun Hbound Howned Hcap]. unfold finally.
  destruct (transfers w !! n) as [t|] eqn:Hn; [|done].
  case_decide as Hchain; [|done].
  pose (t' := mkTransfer (owner t) (aborted t) (listening t) (upload t) Finished).
  split; simpl; [| lia | | done].
  - rewrite Hrun. unfold inFlight.
    pose proof (length_filter_insert (λ t, chain t ≠ Finished) _ n t t' Hn) as Hcount.
    simpl in Hcount. rewrite decide_True in Hcount by congruence.
    fold t'. lia.
  - intros k. specialize (Howned k). unfold waitingOf in *.
    pose proof (length_filter_insert (λ t, chain t = Waiting ∧ owner t = k) _ n t t'
                  Hn) as Hcount.
    simpl in Hcount. rewrite !decide_False in Hcount by (intros [? _]; congruence).
    fold t'. lia.
Qed.

Lemma Inv_step w e : Inv w → Inv (step w e).
Proof.
  destruct e; simpl;
    auto using Inv_pushFiles, Inv_cancelItem, Inv_retryItem, Inv_removeItem,
      Inv_startAll, Inv_cancelAll, Inv_pump, Inv_tick, Inv_react, Inv_finally.
Qed.

Lemma Inv_foldl evs : ∀ w, Inv w → Inv (foldl step w evs).
Proof.
  induction evs as [|e evs IH]; intros w HI; simpl; [done|].
  by apply IH, Inv_step.
Qed.

Lemma Inv_session evs : Inv (session evs).
Proof. apply Inv_foldl, Inv_initial. Qed.

Lemma waiting_le_inFlight trs :
  Z.of_nat (length (filter (λ t, chain t = Waiting) trs)) ≤ inFlight trs.
Proof.
  unfold inFlight. apply inj_le.
  induction trs as [|t trs IH]; [done|].
  destruct (decide (chain t = Waiting)) as [Ht|Ht].
  - rewrite !filter_cons_True by congruence. simpl. lia.
  - rewrite (filter_cons_False _ t) by done. etrans; [apply IH|].
    destruct (decide (chain t ≠ Finished)).
    + rewrite filter_cons_True by done. simpl. lia.
    + by rewrite filter_cons_False by done.
Qed.

(** The invariant bounds the count the component displays. *)
Lemma Inv_uploadingCount w : Inv w → uploadingCount (items w) ≤ running w.
Proof.
  intros [Hrun _ Howned _]. rewrite Hrun. unfold uploadingCount.
  etrans; [|apply waiting_le_inFlight]. apply inj_le.
  apply (length_filter_by_key _ (λ t, chain t = Waiting) id owner), Howned.
Qed.

(** [pump] counts each [mockUpload] call it makes in [running] and makes no
    more calls than the budget it computed. *)
Lemma pump_budget draw w :
  let started :=
    Z.of_nat (length (transfers (pump draw w))) - Z.of_nat (length (transfers w)) in
  0 ≤ started ≤ Z.max 0 (CONCURRENCY - running w)
  ∧ running (pump draw w) = running w + started.
Proof.
  unfold pump. case_bool_decide as Hfull; [lia|].
  destruct (pump_loop _ _ _ _ _ _) as [[next run'] trs'] eqn:Hloop.
  destruct (pump_loop_account _ _ _ _ _ _ _ _ _ Hloop)
    as (_ & Hle & Hbudget & (new & -> & Hnew) & _).
  simpl. rewrite length_app. lia.
Qed.

(** The [.finally] reaction of a transfer takes effect once. *)
Lemma finally_once n w : finally n (finally n w) = finally n w.
Proof.
  destruct (transfers w !! n) as [t|] eqn:Hn;
    [destruct (decide (chain t = Handled)) as [Hchain|Hchain]|].
  - assert (finally n w
            = mkWorld (items w) (alert w) (running w - 1)
                (<[n := mkTransfer (owner t) (aborted t) (listening t) (upload t)
                          Finished]> (transfers w))) as ->
      by (unfold finally; rewrite Hn; by rewrite decide_True).
    unfold finally. simpl.
    by rewrite list_lookup_insert_eq by by eapply lookup_lt_Some.
  - assert (finally n w = w) as Hstay
      by (unfold finally; rewrite Hn; by rewrite decide_False).
    by rewrite !Hstay.
  - assert (finally n w = w) as Hstay by (unfold finally; by rewrite Hn).
    by rewrite !Hstay.
Qed.

(** What the [.finally] reaction of transfer [n] does, by the stage of its
    chain: after the [.then] / [.catch] reaction it takes one off [running]
    and marks the chain finished; before it, or once it has run, or for a cell
    that holds no transfer, it changes nothing. *)
Lemma finally_cases n w :
  (∀ t, transfers w !! n = Some t →
     (chain t = Handled →
        running (finally n w) = running w - 1
        ∧ chain <$> transfers (finally n w) !! n = Some Finished
        ∧ items (finally n w) = items w)
     ∧ (chain t ≠ Handled → finally n w = w))
  ∧ (transfers w !! n = None → finally n w = w).
Proof.
  split.
  - intros t Hn. split; intros Hchain.
    + unfold finally. rewrite Hn, decide_True by done. simpl.
      rewrite list_lookup_insert_eq by by eapply lookup_lt_Some. done.
    + unfold finally. by rewrite Hn, decide_False.
  - intros Hn. unfold finally. by rewrite Hn.
Qed.

(** C1 — in every state the component can reach, the number of uploading
    items is at most [running], which is at most [CONCURRENCY] = 3 and counts
    exactly the transfers whose [.finally] has not run; a call of [pump]
    starts at most [CONCURRENCY - running] items and adds their number to
    [running]; the [.finally] reaction of a transfer whose [.then] / [.catch]
    reaction has run takes exactly one off [running] and finishes the chain,
    and at any other stage of the chain (not yet settled and handled, or
    already finished) it changes nothing, so each transfer is taken off
    [running] once. *)
Theorem concurrency_bound (evs : list Event) :
  let w := session evs in
  CONCURRENCY = 3
  ∧ uploadingCount (items w) ≤ CONCURRENCY
  ∧ uploadingCount (items w) ≤ running w ≤ CONCURRENCY
  ∧ running w = inFlight (transfers w)
  ∧ (∀ draw,
       let started :=
         Z.of_nat (length (transfers (pump draw w)))
         - Z.of_nat (length (transfers w)) in
       0 ≤ started ≤ CONCURRENCY - running w
       ∧ running (pump draw w) = running w + started)
  ∧ (∀ n, finally n (finally n w) = finally n w
          ∧ running w - 1 ≤ running (finally n w) ≤ running w)
  ∧ (∀ (n : nat) t, transfers w !! n = Some t →
       (chain t = Handled →
          running (finally n w) = running w - 1
          ∧ chain <$> transfers (finally n w) !! n = Some Finished
          ∧ items (finally n w) = items w)
       ∧ (chain t ≠ Handled → finally n w = w))
  ∧ (∀ n : nat, transfers w !! n = None → finally n w = w).
Proof.
  intros w. pose proof (Inv_session evs) as HI. fold w in HI.
  pose proof (Inv_uploadingCount w HI) as Hcount.
  destruct HI as [Hrun Hbound Howned Hcap].
  split; [done|]. split; [lia|]. split; [lia|]. split; [done|]. split; [|split].
  - intros draw. pose proof (pump_budget draw w) as Hb. simpl in *. lia.
  - intros n. split; [apply finally_once|].
    unfold finally. destruct (transfers w !! n); [|lia].
    case_decide; simpl; lia.
  - split; [intros n; apply (finally_cases n w)|].
    intros n. apply (finally_cases n w).
Qed.

(** ** Retry *)

Lemma retryItem_lookup k w (i : nat) a :
  items w !! i = Some a →
  items (retryItem k w) !! i = Some (if decide (id a = k) then requeued a else a).
Proof. intros Hi. unfold retryItem. simpl. by rewrite list_lookup_fmap, Hi. Qed.

(** C7 — after [retryItem] on an item in error, that item is queued with
    progress 0 and no error message, every item of another id is untouched,
    and so are the store and [running]; the next [pump] starts the item as
    soon as the budget reaches its position. *)
Theorem retry_resets_state k w (i : nat) (a : Item) :
  items w !! i = Some a → id a = k → status a = Error →
  let w' := retryItem k w in
  items w' !! i = Some (requeued a)
  ∧ status (requeued a) = Queued
  ∧ progress (requeued a) = 0
  ∧ error (requeued a) = None
  ∧ (id (requeued a), file (requeued a), previewUrl (requeued a))
    = (id a, file a, previewUrl a)
  ∧ (∀ (j : nat) b, items w !! j = Some b → id b ≠ k → items w' !! j = Some b)
  ∧ length (items w') = length (items w)
  ∧ (running w', transfers w', alert w') = (running w, transfers w, alert w)
  ∧ (∀ draw,
       running w + Z.of_nat (queuedBefore i (items w')) < CONCURRENCY →
       ∃ c, items (pump draw w') !! i = Some (start_item c (requeued a))
            ∧ transfers (pump draw w') !! c = Some (launch (draw c) k)).
Proof.
  intros Hi Hk Herr w'.
  assert (items w' !! i = Some (requeued a)) as Hi'.
  { unfold w'. rewrite (retryItem_lookup k w i a Hi). by rewrite decide_True. }
  repeat split; try done.
  - intros j b Hj Hb. unfold w'. rewrite (retryItem_lookup k w j b Hj).
    by rewrite decide_False.
  - unfold w', retryItem. simpl. by rewrite length_fmap.
  - intros draw Hcap.
    exists (length (transfers w') + queuedBefore i (items w'))%nat. split.
    + rewrite (pump_lookup draw w' i _ Hi'). by rewrite bool_decide_true.
    + rewrite <- Hk. by apply (pump_store draw w' i (requeued a)).
Qed.

(** ** Settlement of a rejected transfer *)

Lemma react_rejected n w t err :
  transfers w !! n = Some t → chain t = Waiting →
  promise (upload t) = Rejected err →
  react n w
  = mkWorld (update_id (owner t) (failed err) (items w)) (alert w) (running w)
      (<[n := mkTransfer (owner t) (aborted t) (listening t) (upload t) Handled]>
         (transfers w)).
Proof.
  intros Hn Hchain Hp. unfold react. rewrite Hn, decide_True, Hp by done. done.
Qed.

(** C9 — when the promise of a transfer is rejected, the [.catch] reaction
    only rewrites the items with the id of that transfer: a failure that is
    not an abort gives [status = error] with the failure's message, an abort
    gives [status = canceled] with no message.  The other items, [running]
    and the alert are untouched, and the reaction itself yields a state (it
    has no exceptional outcome).  The interval callback rejects with the
    network error, [onAbort] with the abort exception. *)
Theorem failure_recorded_on_item n w t err :
  transfers w !! n = Some t → chain t = Waiting →
  promise (upload t) = Rejected err →
  let w' := react n w in
  (∀ (i : nat) x, items w !! i = Some x →
     ∃ x', items w' !! i = Some x'
       ∧ (id x ≠ owner t → x' = x)
       ∧ (id x = owner t →
            status x' = (if isAbort err then Canceled else Error)
            ∧ error x' = (if isAbort err then None else Some (message_of err))
            ∧ (id x', file x', previewUrl x', progress x', serverUrl x', abortCtrl x')
              = (id x, file x, previewUrl x, progress x, serverUrl x, abortCtrl x)))
  ∧ length (items w') = length (items w)
  ∧ running w' = running w ∧ alert w' = alert w
  ∧ isAbort (JsError NETWORK_ERROR) = false
  ∧ isAbort (DOMException "Aborted" "AbortError") = true
  ∧ (∀ env u, timer u = Active → canceled u = false → promise u = Pending →
       elapsed env >= totalMs u → fail env = true →
       promise (tick env u).1 = Rejected (JsError NETWORK_ERROR))
  ∧ (∀ u, timer u ≠ Uninitialized → promise u = Pending →
       promise (onAbort u).1 = Rejected (DOMException "Aborted" "AbortError")).
Proof.
  intros Hn Hchain Hp w'. unfold w'.
  rewrite (react_rejected n w t err Hn Hchain Hp). simpl.
  split; [|split; [|repeat split]].
  - intros i x Hi. unfold update_id. rewrite list_lookup_fmap, Hi. simpl.
    eexists; split; [done|]. by case_decide.
  - unfold update_id. by rewrite length_fmap.
  - intros env u Ht Hc Hpend Hel Hfail. unfold tick.
    rewrite Ht, Hc, bool_decide_true, Hfail by done. simpl.
    unfold reject, settle. simpl. by rewrite Hpend.
  - intros u Ht Hpend. unfold onAbort. simpl.
    destruct (timer u); [done| |]; unfold reject, settle; simpl; by rewrite Hpend.
Qed.

(** ** Enqueueing *)

Lemma not_duplicated_true prev f :
  not_duplicated prev f = true ↔ ∀ x, x ∈ prev → isDuplicate f (file x) = false.
Proof.
  unfold not_duplicated. rewrite negb_true_iff. split.
  - intros Hnone x Hx. destruct (isDuplicate f (file x)) eqn:Hd; [|done].
    assert (existsb (λ x, isDuplicate f (file x)) prev = true) as Hex; [|congruence].
    apply existsb_exists. exists x. split; [by apply list_elem_of_In|done].
  - intros Hall. destruct (existsb _ prev) eqn:Hex; [|done].
    apply existsb_exists in Hex as (x & Hx & Hd).
    apply list_elem_of_In in Hx. rewrite (Hall x Hx) in Hd. done.
Qed.

Lemma isDuplicate_true a b :
  isDuplicate a b = true
  ↔ name a = name b ∧ size a = size b ∧ lastModified a = lastModified b.
Proof.
  unfold isDuplicate. rewrite !andb_true_iff, !bool_decide_eq_true. tauto.
Qed.

(** C10 — [pushFiles] caps the collection at [MAX_FILES] = 10 and filters
    duplicates: after any enqueue the collection holds at most ten items;
    only the first [remain] files of the batch are looked at, the others
    change neither the collection nor the alert; a file that agrees in name,
    size and modification time with the file of an item already in the
    collection is dropped before validation, so it yields neither an item
    nor an error line. *)
Theorem pushFiles_cap_and_duplicates (fresh : nat → string * string) (arr : list File) :
  MAX_FILES = 10
  ∧ (∀ evs, Z.of_nat (length (items (pushFiles fresh arr (session evs)))) ≤ MAX_FILES)
  ∧ (∀ w,
       let remain := Z.to_nat (Z.max 0 (MAX_FILES - Z.of_nat (length (items w)))) in
       let dupFiltered := List.filter (not_duplicated (items w)) (take remain arr) in
       let kept := filter (λ f, validateFile f = None) dupFiltered in
       pushFiles_items fresh arr (items w)
       = (items w ++ imap (fresh_item fresh) kept, omap error_line dupFiltered)
       ∧ pushFiles fresh arr w = pushFiles fresh (take remain arr) w
       ∧ (∀ f x, x ∈ items w →
            name f = name (file x) ∧ size f = size (file x)
            ∧ lastModified f = lastModified (file x) →
            f ∉ dupFiltered)
       ∧ (∀ y x, y ∈ imap (fresh_item fresh) kept → x ∈ items w →
            isDuplicate (file y) (file x) = false)).
Proof.
  split; [done|]. split.
  { intros evs. apply inv_cap, Inv_pushFiles, Inv_session. }
  intros w remain dupFiltered kept.
  split; [apply pushFiles_items_spec|]. split; [|split].
  - unfold pushFiles.
    pose proof (pushFiles_items_spec fresh arr (items w)) as H1.
    pose proof (pushFiles_items_spec fresh (take remain arr) (items w)) as H2.
    simpl in H1, H2. fold remain in H1, H2.
    rewrite take_take, Nat.min_id in H2. by rewrite H1, H2.
  - intros f x Hx Hsame Hf. unfold dupFiltered in Hf.
    apply list_elem_of_In, List.filter_In in Hf as [_ Hf].
    rewrite not_duplicated_true in Hf. specialize (Hf x Hx).
    apply isDuplicate_true in Hsame. congruence.
  - intros y x Hy Hx.
    apply list_elem_of_lookup in Hy as [i Hy].
    rewrite list_lookup_imap in Hy.
    destruct (kept !! i) as [f|] eqn:Hf; simplify_eq/=.
    rewrite fresh_item_file.
    apply list_elem_of_lookup_2, list_elem_of_filter in Hf as [_ Hf].
    unfold dupFiltered in Hf.
    apply list_elem_of_In, List.filter_In in Hf as [_ Hf].
    rewrite not_duplicated_true in Hf. by apply Hf.
Qed.

(** ** Cancelling an item that waits in the queue *)

Lemma owners_by_tag k trs :
  Forall (λ t, owner t ≠ k) trs ↔ Forall (λ p, p.1 ≠ k) (tag <$> trs).
Proof. by rewrite Forall_fmap. Qed.

Lemma with_status_same x : with_status (status x) x = x.
Proof. by destruct x. Qed.

Lemma Parked_update k k0 (base : list Item) f cur :
  k0 ≠ k → (∀ x, id (f x) = id x) →
  Forall (λ x, id x = k → x ∈ base ∧ status x = Canceled) cur →
  Forall (λ x, id x = k → x ∈ base ∧ status x = Canceled) (update_id k0 f cur).
Proof.
  intros Hk Hid Hcur. unfold update_id. apply Forall_fmap.
  eapply Forall_impl; [exact Hcur|]. intros x Hx. simpl.
  case_decide; [|done]. rewrite Hid. congruence.
Qed.

Lemma Parked_pump_loop k (base : list Item) draw available rest :
  ∀ started run trs next run' trs',
  pump_loop draw available started rest run trs = (next, run', trs') →
  Forall (λ x, id x = k → x ∈ base ∧ status x = Canceled) rest →
  Forall (λ t, owner t ≠ k) trs →
  Forall (λ x, id x = k → x ∈ base ∧ status x = Canceled) next
  ∧ Forall (λ t, owner t ≠ k) trs'.
Proof.
  induction rest as [|it rest IH]; intros started run trs next run' trs' Hloop Hrest Htrs;
    simpl in Hloop.
  { by inversion Hloop; subst. }
  inversion Hrest as [|? ? Hit Hrest']; subst.
  case_bool_decide; [|by inversion Hloop; subst].
  destruct (decide (status it = Queued)) as [Hq|Hq];
    destruct (pump_loop _ _ _ rest _ _) as [[nx r] ts] eqn:Hrec;
    inversion Hloop; subst; clear Hloop.
  - assert (id it ≠ k) as Hne.
    { intros Hk. destruct (Hit Hk) as [_ Hc]. congruence. }
    destruct (IH _ _ _ _ _ _ Hrec Hrest') as [Hnx Hts].
    { apply Forall_app. split; [done|]. by repeat constructor. }
    split; [|done]. constructor; [|done]. simpl. intros Hk. done.
  - destruct (IH _ _ _ _ _ _ Hrec Hrest' Htrs) as [Hnx Hts].
    split; [|done]. by constructor.
Qed.

Lemma Parked_step k base w e : quiet k e → Parked k base w → Parked k base (step w e).
Proof.
  intros Hquiet [Hstore Hitems]. destruct e; simpl in *.
  - unfold pushFiles.
    pose proof (pushFiles_items_spec fresh arr (items w)) as Hspec. simpl in Hspec.
    destruct (pushFiles_items fresh arr (items w)) as [next errors].
    inversion Hspec; subst; clear Hspec. split; simpl; [done|].
    apply Forall_app. split; [done|].
    apply Forall_lookup_2. intros i y Hy. rewrite list_lookup_imap in Hy.
    destruct (_ !! i); simplify_eq/=. intros Hk. exfalso.
    apply (Hquiet i). rewrite <- Hk. unfold fresh_item. by destruct (fresh i).
  - unfold cancelItem.
    rewrite (map_store_split _
               (λ it, if decide (id it ≠ k0) then it else with_status Canceled it)
               (λ it trs, if decide (id it ≠ k0) then trs
                          else abort_if_uploading it trs))
      by (intros; by case_decide).
    split; simpl.
    + apply owners_by_tag. rewrite tag_foldl; [by apply owners_by_tag|].
      intros a s. case_decide; [done|]. apply tag_abort_if_uploading.
    + apply Forall_fmap. eapply Forall_impl; [exact Hitems|]. intros x Hx. simpl.
      case_decide; [done|]. simpl. intros Hk. destruct (Hx Hk) as [Hb Hc].
      rewrite <- Hc at 1. by rewrite with_status_same.
  - split; simpl; [done|].
    apply Forall_fmap. eapply Forall_impl; [exact Hitems|]. intros x Hx. simpl.
    case_decide; [|done]. simpl. congruence.
  - split; simpl; [done|].
    apply Forall_forall. intros x Hx. apply list_elem_of_filter in Hx as [_ Hx].
    by apply (proj1 (Forall_forall _ _) Hitems).
  - done.
  - unfold cancelAll.
    rewrite (map_store_split _
               (λ it, with_status
                        (if decide (status it = Success) then status it else Canceled) it)
               abort_if_uploading) by done.
    split; simpl.
    + apply owners_by_tag. rewrite tag_foldl; [by apply owners_by_tag|].
      apply tag_abort_if_uploading.
    + apply Forall_fmap. eapply Forall_impl; [exact Hitems|]. intros x Hx. simpl.
      intros Hk. destruct (Hx Hk) as [Hb Hc].
      rewrite decide_False by congruence.
      rewrite <- Hc at 1. by rewrite with_status_same.
  - unfold pump. case_bool_decide; [done|].
    destruct (pump_loop _ _ _ _ _ _) as [[next run'] trs'] eqn:Hloop.
    destruct (Parked_pump_loop k base _ _ _ _ _ _ _ _ _ Hloop Hitems Hstore).
    by split.
  - unfold tick_transfer. destruct (transfers w !! n) as [t|] eqn:Hn; [|done].
    destruct (tick env (upload t)) as [u calls].
    assert (owner t ≠ k) as Hne
      by (by apply (proj1 (Forall_lookup _ _) Hstore n t)).
    split; simpl.
    + by apply Forall_insert.
    + clear Hn. revert Hitems. generalize (items w).
      induction calls as [|p calls IH]; intros cur Hcur; simpl; [done|].
      apply IH. by apply Parked_update.
  - unfold react. destruct (transfers w !! n) as [t|] eqn:Hn; [|done].
    case_decide; [|done].
    assert (owner t ≠ k) as Hne
      by (by apply (proj1 (Forall_lookup _ _) Hstore n t)).
    destruct (promise (upload t)); [done| |]; split; simpl;
      (by apply Forall_insert) || (by apply Parked_update).
  - unfold finally. destruct (transfers w !! n) as [t|] eqn:Hn; [|done].
    case_decide; [|done].
    assert (owner t ≠ k) as Hne
      by (by apply (proj1 (Forall_lookup _ _) Hstore n t)).
    split; simpl; [by apply Forall_insert|done].
Qed.

Lemma Parked_foldl k base evs : ∀ w,
  Forall (quiet k) evs → Parked k base w → Parked k base (foldl step w evs).
Proof.
  induction evs as [|e evs IH]; intros w Hq HP; simpl; [done|].
  inversion Hq; subst. apply IH; [done|]. by apply Parked_step.
Qed.

Lemma cancelItem_queued k w :
  Forall (λ x, id x = k → status x = Queued) (items w) →
  cancelItem k w
  = mkWorld ((λ x, if decide (id x = k) then with_status Canceled x else x) <$> items w)
            (alert w) (running w) (transfers w).
Proof.
  intros Hq. unfold cancelItem.
  rewrite (map_store_split _
             (λ it, if decide (id it ≠ k) then it else with_status Canceled it)
             (λ it trs, if decide (id it ≠ k) then trs
                        else abort_if_uploading it trs))
    by (intros; by case_decide).
  f_equal.
  - apply list_fmap_ext. intros i x _. by repeat case_decide.
  - generalize (transfers w). induction Hq as [|x l Hx _ IH]; intros trs; [done|].
    simpl. rewrite IH. case_decide as Hk; [done|].
    unfold abort_if_uploading. destruct (abortCtrl x); [|done].
    rewrite decide_False; [done|]. rewrite Hx; [done|]. by destruct (decide (id x = k)).
Qed.

(** C8 — cancelling an item that waits in the queue and was never started
    makes it canceled on the spot and touches nothing else: the store of
    controllers and transfers, [running] and the alert are the same, so no
    [mockUpload] call is made and no controller is created or aborted.  From
    then on, as long as the item is not put back into the queue, no transfer
    is ever launched for its id (in particular a later [pump] does not start
    it) and the item stays as the cancel left it, progress included. *)
Theorem cancel_queued_never_starts k w evs :
  Forall (λ x, id x = k → status x = Queued) (items w) →
  Forall (λ t, owner t ≠ k) (transfers w) →
  Forall (quiet k) evs →
  let w1 := cancelItem k w in
  items w1 = (λ x, if decide (id x = k) then with_status Canceled x else x) <$> items w
  ∧ transfers w1 = transfers w ∧ running w1 = running w ∧ alert w1 = alert w
  ∧ let w2 := foldl step w1 evs in
    Forall (λ t, owner t ≠ k) (transfers w2)
    ∧ Forall (λ x, id x = k → x ∈ items w1 ∧ status x = Canceled) (items w2).
Proof.
  intros Hq Hstore Hquiet w1. unfold w1. rewrite (cancelItem_queued k w Hq). simpl.
  repeat split; try done.
  - apply parked_store with (base := (λ x, if decide (id x = k) then with_status Canceled x else x) <$> items w).
    apply Parked_foldl; [done|]. split; simpl; [done|].
    apply Forall_forall. intros x Hx Hk. split; [done|].
    apply list_elem_of_fmap in Hx as (y & -> & Hy). case_decide; [done|].
    congruence.
  - apply parked_items.
    apply Parked_foldl; [done|]. split; simpl; [done|].
    apply Forall_forall. intros x Hx Hk. split; [done|].
    apply list_elem_of_fmap in Hx as (y & -> & Hy). case_decide; [done|].
    congruence.
Qed.

(** ** Cancellation of a running transfer *)

(** Once [onAbort] has run on a started upload, the promise is rejected with
    the abort exception unless it was settled before, and the interval
    callback makes no further [onProgress] call and changes nothing. *)
Lemma onAbort_started u :
  timer u ≠ Uninitialized →
  let u' := (onAbort u).1 in
  (onAbort u).2 = None
  ∧ canceled u' = true ∧ timer u' = Cleared
  ∧ promise u' = (match promise u with
                  | Pending => Rejected (DOMException "Aborted" "AbortError")
                  | p => p
                  end)
  ∧ ∀ env, tick env u' = (u', []).
Proof.
  intros Ht. unfold onAbort. simpl.
  destruct (timer u) eqn:Hu; [done| |];
    (repeat split; [by unfold reject, settle; simpl; destruct (promise u)
                   |by unfold reject, settle; simpl; destruct (promise u)
                   |by unfold reject, settle; simpl; destruct (promise u)
                   |intros env; unfold tick, reject, settle; simpl;
                    by destruct (promise u)]).
Qed.

(** [abort] on the controller of a transfer that [pump] launched and that has
    not settled: the transfer settles as aborted, whatever the number of
    interval firings so far, and the [.catch] reaction then records
    [canceled] without an error message. *)
Lemma abort_running_transfer t :
  aborted t = false → listening t = true →
  timer (upload t) ≠ Uninitialized → promise (upload t) = Pending →
  promise (upload (abort t)) = Rejected (DOMException "Aborted" "AbortError")
  ∧ (∀ env, tick env (upload (abort t)) = (upload (abort t), []))
  ∧ ∀ x, on_rejected (id x) (DOMException "Aborted" "AbortError") [x]
         = [mkItem (id x) (file x) (previewUrl x) (progress x) Canceled None
                   (serverUrl x) (abortCtrl x)].
Proof.
  intros Ha Hl Ht Hp. unfold abort. rewrite Ha, Hl. simpl.
  destruct (onAbort_started (upload t) Ht) as (_ & _ & _ & Hpr & Htick).
  rewrite Hp in Hpr. repeat split; try done.
  intros x. unfold on_rejected, update_id. simpl. by rewrite decide_True.
Qed.

Lemma ticks_keep_timer envs : ∀ u,
  timer u ≠ Uninitialized →
  timer (foldl (λ u env, (tick env u).1) u envs) ≠ Uninitialized.
Proof.
  induction envs as [|env envs IH]; intros u Hu; simpl; [done|].
  apply IH. unfold tick. destruct (timer u) eqn:Ht; simpl; try congruence.
  destruct (canceled u); simpl; [congruence|].
  case_bool_decide; simpl; [|congruence].
  destruct (fail env); unfold reject, resolve, settle; simpl;
    by destruct (promise u).
Qed.

(** A transfer launched by [pump] can be aborted at any time before it
    settles: its signal is fresh, the listener is registered, and the
    interval firings leave the timer initialised. *)
Lemma launch_then_ticks draw k envs :
  aborted (launch draw k) = false
  ∧ listening (launch draw k) = true
  ∧ timer (foldl (λ u env, (tick env u).1) (upload (launch draw k)) envs)
    ≠ Uninitialized.
Proof. repeat split. by apply ticks_keep_timer. Qed.

(** C2 — evaluation at the failing input: [mockUpload] called with a signal
    that is already aborted.  [onAbort] runs before [const timer] is
    initialised, so [clearInterval(timer)] throws inside the promise
    executor: the promise is rejected with that [ReferenceError], which is
    not an abort, and the [.catch] reaction of the queue records [error]
    with the exception's message instead of [canceled]. *)
Theorem mockUpload_preaborted_signal (draw : Z) (x : Item) :
  let u := (mockUpload draw (Some true)).1 in
  promise u = Rejected (ReferenceError tdz_message)
  ∧ promise u ≠ Rejected (DOMException "Aborted" "AbortError")
  ∧ isAbort (ReferenceError tdz_message) = false
  ∧ on_rejected (id x) (ReferenceError tdz_message) [x]
    = [mkItem (id x) (file x) (previewUrl x) (progress x) Error (Some tdz_message)
              (serverUrl x) (abortCtrl x)].
Proof.
  simpl. repeat split; try done.
  unfold on_rejected, update_id. simpl. by rewrite decide_True.
Qed.

(** ** Commands on items in the wrong state *)

Lemma cancelItem_items k w :
  items (cancelItem k w)
  = (λ it, if decide (id it = k) then with_status Canceled it else it) <$> items w.
Proof.
  unfold cancelItem.
  rewrite (map_store_split _
             (λ it, if decide (id it ≠ k) then it else with_status Canceled it)
             (λ it trs, if decide (id it ≠ k) then trs
                        else abort_if_uploading it trs))
    by (intros; by case_decide).
  simpl. apply list_fmap_ext. intros i x _. by repeat case_decide.
Qed.

Lemma cancelAll_items w :
  items (cancelAll w)
  = (λ it, with_status (if decide (status it = Success) then status it else Canceled) it)
      <$> items w.
Proof.
  unfold cancelAll.
  by rewrite (map_store_split _
                (λ it, with_status
                         (if decide (status it = Success) then status it else Canceled) it)
                abort_if_uploading) by done.
Qed.

(** C3 — evaluation at the failing input: once the upload of a file has
    completed its item is in [success]; [cancelItem] with its id then sets it
    to [canceled], whereas [cancelAll], [startAll] and [pump] leave it in
    [success].  In general [cancelItem] sets every item of the given id to
    [canceled], whatever its status, while [cancelAll], [startAll] and [pump]
    return an item in [success] unchanged. *)
Theorem cancelItem_overrides_success :
  status <$> items (session uploaded_a) = [Success]
  ∧ status <$> items (session (uploaded_a ++ [CancelItem "item-0"])) = [Canceled]
  ∧ status <$> items (session (uploaded_a ++ [CancelAll])) = [Success]
  ∧ status <$> items (session (uploaded_a ++ [StartAll])) = [Success]
  ∧ status <$> items (session (uploaded_a ++ [Pump shortest])) = [Success]
  ∧ (∀ k w (i : nat) a,
       items w !! i = Some a → id a = k → status a = Success →
       ∃ a', items (cancelItem k w) !! i = Some a' ∧ status a' = Canceled)
  ∧ (∀ w (i : nat) a draw,
       items w !! i = Some a → status a = Success →
       items (cancelAll w) !! i = Some a
       ∧ items (startAll w) !! i = Some a
       ∧ items (pump draw w) !! i = Some a).
Proof.
  do 5 (split; [by vm_compute|]). split.
  - intros k w i a Hi Hk Hs. exists (with_status Canceled a).
    rewrite cancelItem_items, list_lookup_fmap, Hi. simpl.
    by rewrite decide_True.
  - intros w i a draw Hi Hs. repeat split.
    + rewrite cancelAll_items, list_lookup_fmap, Hi. simpl.
      rewrite decide_True by done. by rewrite with_status_same.
    + unfold startAll. simpl. rewrite list_lookup_fmap, Hi. simpl.
      by rewrite Hs.
    + rewrite (pump_lookup draw w i a Hi). rewrite bool_decide_false; [done|].
      rewrite Hs. by intros [? _].
Qed.



(** ** The theorems at work on the sample sessions *)

(** The only upload has completed and its [.then] reaction has run: its
    [.finally] reaction takes [running] from 1 to 0. *)
Lemma concurrency_bound_witness :
  running (finally 0 (session (uploading_a ++ [Tick 0 completed; React 0])))
  = running (session (uploading_a ++ [Tick 0 completed; React 0])) - 1.
Proof.
  pose proof (concurrency_bound (uploading_a ++ [Tick 0 completed; React 0])) as H.
  cbv zeta in H. destruct H as (_ & _ & _ & _ & _ & _ & H & _).
  refine (proj1 (proj1 (H 0%nat
            (mkTransfer "item-0" false true
               (mkUpload 800 false Cleared (Fulfilled "k3x9q2ab" "blob:remote"))
               Handled) _) _)); by vm_compute.
Defined.


(** [retryItem] on the item whose upload failed. *)
Lemma retry_resets_state_witness :
  items (retryItem "item-0" (session failed_a)) !! 0%nat
  = Some (requeued item_a_failed).
Proof.
  refine (proj1 (retry_resets_state "item-0" (session failed_a) 0%nat
                   item_a_failed _ _ _)); by vm_compute.
Defined.


(** Three uploads are running; the fourth file is cancelled while it waits,
    then an upload completes and [pump] runs again. *)
Lemma cancel_queued_never_starts_witness :
  transfers (cancelItem "item-3" (session (four_files ++ [Pump shortest])))
  = transfers (session (four_files ++ [Pump shortest])).
Proof.
  refine (proj1 (proj2 (cancel_queued_never_starts "item-3"
                          (session (four_files ++ [Pump shortest]))
                          [Pump shortest; Tick 0 completed; React 0; Finally 0;
                           Pump shortest; CancelAll] _ _ _))).
  - apply (bool_decide_unpack _). by vm_compute.
  - apply (bool_decide_unpack _). by vm_compute.
  - repeat constructor.
Defined.

(** The upload of the only file fails with the network error. *)
Lemma failure_recorded_on_item_witness :
  length (items (react 0 (session (uploading_a ++ [Tick 0 broken]))))
  = length (items (session (uploading_a ++ [Tick 0 broken]))).
Proof.
  refine (proj1 (proj2 (failure_recorded_on_item 0
                          (session (uploading_a ++ [Tick 0 broken]))
                          (mkTransfer "item-0" false true
                             (mkUpload 800 false Cleared
                                (Rejected (JsError NETWORK_ERROR))) Waiting)
                          (JsError NETWORK_ERROR) _ _ _))); by vm_compute.
Defined.

(** * Further properties of the code *)

(** ** The two names read by [validateFile] *)

(** With the two names bound to the constants of [A11yUploader.tsx] nothing
    throws, and [validateFile_in] and [pushFiles_in] compute what
    [validateFile] and [pushFiles] compute. *)
Lemma validateFile_in_component f :
  validateFile_in component_scope f = inr (validateFile f).
Proof.
  unfold validateFile_in, validateFile.
  cbn [component_scope scope_ACCEPT scope_MAX_SIZE_BYTES].
  destruct (negb (bool_decide (type f ∈ ACCEPT))); [done|].
  by destruct (bool_decide (size f > MAX_SIZE_BYTES)).
Qed.

Lemma collect_in_component fresh fs : ∀ toAdd errors,
  collect_in component_scope fresh fs toAdd errors
  = inr (collect fresh fs toAdd errors).
Proof.
  induction fs as [|f fs IH]; intros toAdd errors; cbn [collect_in collect]; [done|].
  rewrite validateFile_in_component. destruct (validateFile f); apply IH.
Qed.

Lemma pushFiles_in_component fresh arr w :
  pushFiles_in component_scope fresh arr w = inr (pushFiles fresh arr w).
Proof.
  unfold pushFiles_in, pushFiles, pushFiles_items. cbv zeta.
  rewrite collect_in_component. by destruct (collect _ _ _ _).
Qed.

Lemma validateFile_in_None sc f :
  validateFile_in sc f = inr None
  ↔ ∃ accept limit,
      scope_ACCEPT sc = Some accept ∧ scope_MAX_SIZE_BYTES sc = Some limit
      ∧ type f ∈ accept ∧ size f ≤ limit.
Proof.
  unfold validateFile_in. split.
  - destruct (scope_ACCEPT sc) as [accept|]; [|done].
    case_bool_decide as Ht; cbn [negb]; [|done].
    destruct (scope_MAX_SIZE_BYTES sc) as [limit|]; [|done].
    case_bool_decide as Hs; [done|]. intros _. exists accept, limit.
    repeat split; [done|lia].
  - intros (accept & limit & -> & -> & Ht & Hs).
    rewrite bool_decide_true by done. cbn [negb].
    by rewrite bool_decide_false by lia.
Qed.

(** As the modules stand every call of [validateFile] throws. *)
Lemma validateFile_in_utils f :
  validateFile_in utils_scope f = inl (not_defined "ACCEPT").
Proof. done. Qed.

(** ** Enqueueing, file by file *)

Lemma not_duplicated_false prev f :
  not_duplicated prev f = false
  ↔ ∃ x, x ∈ prev ∧ name (file x) = name f ∧ size (file x) = size f
         ∧ lastModified (file x) = lastModified f.
Proof.
  split.
  - intros Hd. destruct (decide (Exists (λ x, isDuplicate f (file x) = true) prev))
      as [Hex|Hnex].
    + apply Exists_exists in Hex as (x & Hx & Hdup).
      apply isDuplicate_true in Hdup as (? & ? & ?). by exists x.
    + assert (not_duplicated prev f = true) as Htrue; [|congruence].
      apply not_duplicated_true. intros x Hx.
      destruct (isDuplicate f (file x)) eqn:Hdup; [|done].
      exfalso. apply Hnex, Exists_exists. by exists x.
  - intros (x & Hx & Hn & Hs & Hl).
    destruct (not_duplicated prev f) eqn:Hd; [|done].
    rewrite not_duplicated_true in Hd. specialize (Hd x Hx).
    assert (isDuplicate f (file x) = true) as Hdup by (by apply isDuplicate_true).
    congruence.
Qed.

Lemma pushFiles_items_one fresh f prev :
  pushFiles_items fresh [f] prev
  = if bool_decide (Z.of_nat (length prev) < MAX_FILES) && not_duplicated prev f
    then match validateFile f with
         | None => (prev ++ [fresh_item fresh 0 f], [])
         | Some err => (prev, [name f +:+ ": " +:+ err])
         end
    else (prev, []).
Proof.
  rewrite pushFiles_items_spec. cbv zeta.
  case_bool_decide as Hroom; cbn [andb].
  - rewrite take_ge by (simpl; lia). cbn [List.filter].
    destruct (not_duplicated prev f); [|by rewrite filter_nil, app_nil_r].
    cbn [omap list_omap]. unfold error_line.
    destruct (validateFile f) eqn:Hv; cbn [fmap option_fmap option_map].
    + rewrite filter_cons_False by (by rewrite Hv).
      by rewrite filter_nil, app_nil_r.
    + by rewrite filter_cons_True, filter_nil.
  - replace (Z.to_nat (0 `max` (MAX_FILES - Z.of_nat (length prev)))) with 0%nat by lia.
    cbn [take List.filter]. by rewrite filter_nil, app_nil_r.
Qed.

Lemma World_eta w : mkWorld (items w) (alert w) (running w) (transfers w) = w.
Proof. by destruct w. Qed.

Lemma pushFiles_in_one sc fresh f w :
  pushFiles_in sc fresh [f] w
  = if bool_decide (Z.of_nat (length (items w)) < MAX_FILES)
       && not_duplicated (items w) f
    then match validateFile_in sc f with
         | inl e => inl e
         | inr None =>
             inr (mkWorld (items w ++ [fresh_item fresh 0 f]) (alert w)
                          (running w) (transfers w))
         | inr (Some err) =>
             inr (mkWorld (items w) (Some (name f +:+ ": " +:+ err))
                          (running w) (transfers w))
         end
    else inr w.
Proof.
  unfold pushFiles_in. cbv zeta.
  case_bool_decide as Hroom; cbn [andb].
  - rewrite take_ge by (simpl; lia). cbn [List.filter].
    destruct (not_duplicated (items w) f); cbn [collect_in].
    + destruct (validateFile_in sc f) as [e|[err|]]; [done| |done].
      cbn [app length join_lines]. rewrite app_nil_r. done.
    + by rewrite app_nil_r, World_eta.
  - replace (Z.to_nat (0 `max` (MAX_FILES - Z.of_nat (length (items w)))))
      with 0%nat by lia.
    cbn [take List.filter collect_in]. by rewrite app_nil_r, World_eta.
Qed.

(** X1 — what [pushFiles] does with a single file, whatever [ACCEPT] and
    [MAX_SIZE_BYTES] resolve to.  When the collection holds [MAX_FILES] items
    or an item holds a file of the same name, size and modification time,
    [validateFile] is not called and the state is returned as it is.
    Otherwise the outcome is that of [validateFile]: an exception leaves the
    updater; a message becomes the alert, prefixed with the file name, and
    the collection stays; [null] appends one queued item with progress 0 and
    leaves the alert.  [validateFile] returns [null] exactly when both names
    are bound, the MIME type is among the accepted ones and the size is at
    most the limit (inclusive). *)
Theorem pushFiles_single sc fresh f w :
  let room := Z.of_nat (length (items w)) < MAX_FILES in
  let held :=
    ∃ x, x ∈ items w ∧ name (file x) = name f ∧ size (file x) = size f
         ∧ lastModified (file x) = lastModified f in
  (¬ room ∨ held → pushFiles_in sc fresh [f] w = inr w)
  ∧ (room ∧ ¬ held →
       pushFiles_in sc fresh [f] w
       = match validateFile_in sc f with
         | inl e => inl e
         | inr None =>
             inr (mkWorld (items w ++ [mkItem (fresh 0%nat).1 f (fresh 0%nat).2 0
                                              Queued None None None])
                          (alert w) (running w) (transfers w))
         | inr (Some err) =>
             inr (mkWorld (items w) (Some (name f +:+ ": " +:+ err))
                          (running w) (transfers w))
         end)
  ∧ (validateFile_in sc f = inr None
     ↔ ∃ accept limit,
         scope_ACCEPT sc = Some accept ∧ scope_MAX_SIZE_BYTES sc = Some limit
         ∧ type f ∈ accept ∧ size f ≤ limit).
Proof.
  intros room held. rewrite pushFiles_in_one.
  split; [|split; [|apply validateFile_in_None]].
  - intros [Hfull|Hheld].
    + by rewrite bool_decide_false.
    + apply not_duplicated_false in Hheld. rewrite Hheld. by rewrite andb_false_r.
  - intros [Hroom Hfree]. rewrite bool_decide_true by done.
    destruct (not_duplicated (items w) f) eqn:Hd.
    + cbn [andb]. unfold fresh_item. by destruct (fresh 0%nat).
    + exfalso. by apply Hfree, not_duplicated_false.
Qed.

(** X2 — where [ACCEPT] is bound and [MAX_SIZE_BYTES] is bound to the 5 MiB
    of [A11yUploader.tsx], a file of an accepted type that is at most 5242
    bytes over the limit is turned down as too large with a message that
    shows its size as 5.00MB. *)
Theorem validateFile_just_over_limit sc accept f :
  scope_ACCEPT sc = Some accept →
  scope_MAX_SIZE_BYTES sc = Some (5 * 1024 * 1024) →
  type f ∈ accept →
  5 * 1024 * 1024 < size f ≤ 5 * 1024 * 1024 + 5242 →
  validateFile_in sc f = inr (Some "파일 용량 초과(5.00MB)").
Proof.
  intros Ha Hm Ht Hs. unfold validateFile_in. rewrite Ha, Hm.
  rewrite bool_decide_true by done. cbn [negb].
  rewrite bool_decide_true by lia.
  unfold toFixed2_MB.
  assert ((200 * size f + 1048576) `div` 2097152 = 500) as ->.
  { symmetry.
    apply Z.div_unique with (r := 200 * size f + 1048576 - 500 * 2097152); lia. }
  done.
Qed.

(** X3 — duplicates are only looked for among the items already in the
    collection: when the same file comes twice in one batch and no item
    holds it yet, both copies pass the duplicate filter although
    [isDuplicate] holds between them, and [validateFile] decides for both:
    an exception leaves the updater at the first copy, a message is reported
    twice, [null] appends two items. *)
Theorem pushFiles_batch_duplicates_kept sc fresh f w :
  Z.of_nat (length (items w)) + 2 ≤ MAX_FILES →
  (∀ x, x ∈ items w →
        ¬ (name (file x) = name f ∧ size (file x) = size f
           ∧ lastModified (file x) = lastModified f)) →
  isDuplicate f f = true
  ∧ pushFiles_in sc fresh [f; f] w
    = match validateFile_in sc f with
      | inl e => inl e
      | inr None =>
          inr (mkWorld (items w ++ [mkItem (fresh 0%nat).1 f (fresh 0%nat).2 0
                                           Queued None None None;
                                    mkItem (fresh 1%nat).1 f (fresh 1%nat).2 0
                                           Queued None None None])
                       (alert w) (running w) (transfers w))
      | inr (Some err) =>
          inr (mkWorld (items w)
                       (Some (join_lines [name f +:+ ": " +:+ err;
                                          name f +:+ ": " +:+ err]))
                       (running w) (transfers w))
      end.
Proof.
  intros Hroom Hfree. split; [by apply isDuplicate_true|].
  assert (not_duplicated (items w) f = true) as Hd.
  { destruct (not_duplicated (items w) f) eqn:Hd; [done|].
    apply not_duplicated_false in Hd as (x & Hx & Hsame). by destruct (Hfree x Hx). }
  unfold pushFiles_in. cbv zeta.
  rewrite take_ge by (unfold MAX_FILES in *; simpl; lia).
  cbn [List.filter]. rewrite Hd. cbn [collect_in].
  destruct (validateFile_in sc f) as [e|[err|]]; [done| |].
  - cbn [app length]. rewrite app_nil_r. done.
  - cbn [app length]. unfold fresh_item.
    destruct (fresh 0%nat), (fresh 1%nat). done.
Qed.

(** X21 — as the modules stand [pushFiles] cannot add an item: the first
    file that is within the cap and duplicates no item reaches
    [validateFile], whose first line reads the unbound name [ACCEPT]; the
    ReferenceError leaves the updater, so no item is created and no alert is
    set.  Only a batch without such a file returns, with the state as it
    was. *)
Theorem pushFiles_as_the_modules_stand fresh arr w :
  let remain := Z.to_nat (Z.max 0 (MAX_FILES - Z.of_nat (length (items w)))) in
  (∀ f, validateFile_in utils_scope f
        = inl (not_defined "ACCEPT"))
  ∧ pushFiles_in utils_scope fresh arr w
    = match List.filter (not_duplicated (items w)) (take remain arr) with
      | [] => inr w
      | _ :: _ => inl (not_defined "ACCEPT")
      end.
Proof.
  intros remain. split; [done|].
  unfold pushFiles_in. cbv zeta. fold remain.
  destruct (List.filter _ _) as [|f fs]; [|done].
  cbn [collect_in]. by rewrite app_nil_r, World_eta.
Qed.

(** X4 — enqueueing the same single file a second time never adds a second
    item: whatever happened to the file the first time, the collection after
    the second call is the collection after the first. *)
Theorem pushFiles_twice fresh1 fresh2 f w :
  items (pushFiles fresh2 [f] (pushFiles fresh1 [f] w))
  = items (pushFiles fresh1 [f] w).
Proof.
  unfold pushFiles at 1. rewrite pushFiles_items_one.
  destruct (bool_decide (_ < MAX_FILES) && not_duplicated _ f) eqn:Hc; [|done].
  destruct (validateFile f) eqn:Hv; [done|]. exfalso.
  unfold pushFiles in Hc. rewrite pushFiles_items_one in Hc.
  destruct (bool_decide (_ < MAX_FILES) && not_duplicated (items w) f) eqn:Hc1.
  - rewrite Hv in Hc. simpl in Hc. apply andb_true_iff in Hc as [_ Hnd].
    rewrite not_duplicated_true in Hnd.
    specialize (Hnd (fresh_item fresh1 0 f)).
    rewrite fresh_item_file in Hnd.
    assert (isDuplicate f f = true) as Hff by (by apply isDuplicate_true).
    rewrite Hnd in Hff; [done|]. apply elem_of_app. right. left.
  - simpl in Hc. congruence.
Qed.

(** X5 — the cap counts the files looked at, not the items created: when
    every one of the first [remain] files of a batch is turned down, nothing
    is added, however many acceptable files follow. *)
Theorem pushFiles_turned_down_files_use_slots fresh arr prev :
  let remain := Z.to_nat (Z.max 0 (MAX_FILES - Z.of_nat (length prev))) in
  Forall (turned_down prev) (take remain arr) →
  (pushFiles_items fresh arr prev).1 = prev.
Proof.
  intros remain Hall. rewrite pushFiles_items_spec. simpl. fold remain.
  assert (filter (λ f, validateFile f = None)
            (List.filter (not_duplicated prev) (take remain arr)) = []) as ->;
    [|by rewrite app_nil_r].
  induction Hall as [|f fs Hf _ IH]; [done|]. cbn [List.filter].
  destruct (not_duplicated prev f) eqn:Hd; [|done].
  rewrite filter_cons_False; [done|].
  destruct Hf as [?|?]; [congruence|done].
Qed.

(** ** How far [pump] fills the free slots *)

Lemma pump_loop_started draw available rest : ∀ started run trs next run' trs',
  pump_loop draw available started rest run trs = (next, run', trs') →
  run' - run
  = Z.min (Z.of_nat (queuedCount rest)) (Z.max 0 (available - started))
  ∧ Z.of_nat (queuedCount next) = Z.of_nat (queuedCount rest) - (run' - run).
Proof.
  unfold queuedCount.
  induction rest as [|it rest IH]; intros started run trs next run' trs' Hloop;
    simpl in Hloop.
  { inversion Hloop; subst. simpl. lia. }
  case_bool_decide as Hbudget.
  - destruct (decide (status it = Queued)) as [Hq|Hq];
      destruct (pump_loop _ _ _ rest _ _) as [[nx r] ts] eqn:Hrec;
      inversion Hloop; subst; clear Hloop;
      destruct (IH _ _ _ _ _ _ Hrec) as [Hn Hleft].
    + rewrite (filter_cons_True _ it) by done.
      rewrite (filter_cons_False _ (start_item _ it)) by done.
      cbn [length]. lia.
    + rewrite !(filter_cons_False _ it) by done. lia.
  - inversion Hloop; subst; clear Hloop. lia.
Qed.

(** X6 — [pump] starts as many items as it can: the number of items it
    starts is the smaller of the number of queued items and the number of
    free slots, so afterwards either all [CONCURRENCY] slots are taken or
    nothing is left waiting. *)
Theorem pump_fills_capacity draw w :
  let w' := pump draw w in
  let free := Z.max 0 (CONCURRENCY - running w) in
  running w' = running w + Z.min (Z.of_nat (queuedCount (items w))) free
  ∧ Z.of_nat (queuedCount (items w'))
    = Z.of_nat (queuedCount (items w)) - Z.min (Z.of_nat (queuedCount (items w))) free
  ∧ (CONCURRENCY ≤ running w' ∨ queuedCount (items w') = 0%nat).
Proof.
  unfold pump. case_bool_decide as Hfull; simpl.
  { repeat split; [lia..|by left; lia]. }
  destruct (pump_loop _ _ _ _ _ _) as [[next run'] trs'] eqn:Hloop. simpl.
  destruct (pump_loop_started _ _ _ _ _ _ _ _ _ Hloop) as [Hn Hleft].
  repeat split; [lia..|].
  destruct (decide (CONCURRENCY ≤ run')); [by left|right]. lia.
Qed.

(** ** What the operations keep of the collection *)

Lemma identity_fmap (g : Item → Item) (l : list Item) :
  (∀ x, identity (g x) = identity x) → identity <$> (g <$> l) = identity <$> l.
Proof.
  intros Hg. rewrite <- list_fmap_compose. apply list_fmap_ext.
  intros i x _. apply Hg.
Qed.

Lemma identity_update_id k f l :
  (∀ x, identity (f x) = identity x) →
  identity <$> update_id k f l = identity <$> l.
Proof. intros Hf. apply identity_fmap. intros x. by case_decide. Qed.

Lemma identity_pump_loop draw available rest : ∀ started run trs next run' trs',
  pump_loop draw available started rest run trs = (next, run', trs') →
  identity <$> next = identity <$> rest.
Proof.
  induction rest as [|it rest IH]; intros started run trs next run' trs' Hloop;
    simpl in Hloop.
  { by inversion Hloop. }
  case_bool_decide; [|by inversion Hloop].
  destruct (decide (status it = Queued));
    destruct (pump_loop _ _ _ rest _ _) as [[nx r] ts] eqn:Hrec;
    inversion Hloop; subst; clear Hloop;
    rewrite !fmap_cons, (IH _ _ _ _ _ _ Hrec); done.
Qed.

(** X7 — items are created by [pushFiles] and deleted by [removeItem] only,
    and nothing ever changes the id, the file or the preview of an item or
    the order of the collection: [pushFiles] appends to the collection,
    [removeItem] keeps the items of the other ids in place, and every other
    event (commands, [pump], interval firings, promise reactions) leaves the
    sequence of identities as it is. *)
Theorem identities_preserved w e :
  match e with
  | PushFiles _ _ => ∃ new, items (step w e) = items w ++ new
  | RemoveItem k =>
      items (step w e) = filter (λ x, id x ≠ k) (items w)
  | _ => identity <$> items (step w e) = identity <$> items w
  end.
Proof.
  destruct e; simpl.
  - unfold pushFiles.
    pose proof (pushFiles_items_spec fresh arr (items w)) as Hspec. simpl in Hspec.
    destruct (pushFiles_items fresh arr (items w)) as [next errors].
    inversion Hspec; subst. simpl. eauto.
  - rewrite cancelItem_items. apply identity_fmap. intros x. by case_decide.
  - unfold retryItem. simpl. apply identity_fmap. intros x. by case_decide.
  - done.
  - unfold startAll. simpl. apply identity_fmap. intros x. by case_match.
  - rewrite cancelAll_items. by apply identity_fmap.
  - unfold pump. case_bool_decide; [done|].
    destruct (pump_loop _ _ _ _ _ _) as [[next run'] trs'] eqn:Hloop. simpl.
    by eapply identity_pump_loop.
  - unfold tick_transfer. destruct (transfers w !! n) as [t|]; [|done].
    destruct (tick env (upload t)) as [u calls]. simpl.
    generalize (items w). induction calls as [|p calls IH]; intros cur; [done|].
    simpl. rewrite IH. by apply identity_update_id.
  - unfold react. destruct (transfers w !! n) as [t|]; [|done].
    case_decide; [|done].
    destruct (promise (upload t)); [done| |]; simpl; by apply identity_update_id.
  - unfold finally. destruct (transfers w !! n) as [t|]; [|done].
    by case_decide.
Qed.

Lemma id_by_identity k (l : list Item) :
  Forall (λ x, id x ≠ k) l
  ↔ Forall (λ p : string * File * string, p.1.1 ≠ k) (identity <$> l).
Proof. by rewrite Forall_fmap. Qed.

Lemma keeps_out_step k w e :
  keeps_out k e →
  Forall (λ x, id x ≠ k) (items w) → Forall (λ x, id x ≠ k) (items (step w e)).
Proof.
  intros Hout Hw. pose proof (identities_preserved w e) as He.
  destruct e; simpl in *;
    try (apply id_by_identity; rewrite He; by apply id_by_identity).
  - unfold pushFiles in *.
    pose proof (pushFiles_items_spec fresh arr (items w)) as Hspec. simpl in Hspec.
    destruct (pushFiles_items fresh arr (items w)) as [next errors].
    inversion Hspec; subst. simpl. apply Forall_app. split; [done|].
    apply Forall_lookup_2. intros i y Hy. rewrite list_lookup_imap in Hy.
    destruct (_ !! i); simplify_eq/=. intros Hk.
    apply (Hout i). rewrite <- Hk. unfold fresh_item. by destruct (fresh i).
  - apply Forall_forall. intros x Hx.
    apply list_elem_of_filter in Hx as [_ Hx].
    by apply (proj1 (Forall_forall _ _) Hw).
Qed.

(** X8 — [removeItem] deletes every item of the given id without touching
    the scheduler: the transfer of an uploading item is not aborted and keeps
    its slot ([running] and the store are unchanged).  The item does not come
    back when that transfer reports progress or settles: as long as no
    enqueue hands out the id again, no later event produces an item of that
    id. *)
Theorem removed_item_stays_removed k w evs :
  Forall (keeps_out k) evs →
  (running (removeItem k w), transfers (removeItem k w), alert (removeItem k w))
  = (running w, transfers w, alert w)
  ∧ (∀ x, x ∈ items w → id x ≠ k → x ∈ items (removeItem k w))
  ∧ Forall (λ x, id x ≠ k) (items (foldl step (removeItem k w) evs)).
Proof.
  intros Hevs. split; [done|]. split.
  { intros x Hx Hk. simpl. by apply list_elem_of_filter. }
  assert (Forall (λ x, id x ≠ k) (items (removeItem k w))) as H0.
  { simpl. apply Forall_forall. intros x Hx.
    by apply list_elem_of_filter in Hx as [? _]. }
  revert H0. generalize (removeItem k w).
  induction Hevs as [|e evs He _ IH]; intros w0 H0; simpl; [done|].
  by apply IH, keeps_out_step.
Qed.

(** ** The bulk commands *)

Lemma pump_nothing_queued draw w :
  Forall (λ x, status x ≠ Queued) (items w) → pump draw w = w.
Proof.
  intros Hq. unfold pump. case_bool_decide; [done|].
  rewrite pump_loop_nothing_queued by done. by destruct w.
Qed.

Lemma foldl_abort_not_uploading (l : list Item) (trs : list Transfer) :
  Forall (λ x, status x ≠ Uploading) l →
  foldl (λ s a, abort_if_uploading a s) trs l = trs.
Proof.
  intros Hl. revert trs. induction Hl as [|x l Hx _ IH]; intros trs; [done|].
  simpl. rewrite IH. unfold abort_if_uploading.
  destruct (abortCtrl x); [|done]. by rewrite decide_False.
Qed.

Lemma cancelAll_unfold w :
  cancelAll w
  = mkWorld ((λ it, with_status
                      (if decide (status it = Success) then status it else Canceled) it)
               <$> items w)
            (alert w) (running w)
            (foldl (λ s a, abort_if_uploading a s) (transfers w) (items w)).
Proof.
  unfold cancelAll.
  by rewrite (map_store_split _
                (λ it, with_status
                         (if decide (status it = Success) then status it else Canceled) it)
                abort_if_uploading) by done.
Qed.

(** X9 — after [cancelAll] every item is either in [success] or in
    [canceled]; doing it again changes nothing, and a [pump] that follows
    starts nothing and leaves the state as it is. *)
Theorem cancelAll_stops_everything w :
  Forall (λ x, status x = Success ∨ status x = Canceled) (items (cancelAll w))
  ∧ cancelAll (cancelAll w) = cancelAll w
  ∧ (∀ draw, pump draw (cancelAll w) = cancelAll w)
  ∧ running (cancelAll w) = running w
  ∧ length (transfers (cancelAll w)) = length (transfers w).
Proof.
  assert (Forall (λ x, status x = Success ∨ status x = Canceled)
            (items (cancelAll w))) as Hst.
  { rewrite cancelAll_unfold. simpl. apply Forall_fmap, Forall_true.
    intros x. simpl. case_decide; [by left|by right]. }
  split; [done|]. split; [|split; [|split]].
  - rewrite (cancelAll_unfold (cancelAll w)).
    rewrite foldl_abort_not_uploading
      by (eapply Forall_impl; [exact Hst|]; by intros x [->| ->]).
    rewrite (list_fmap_ext _ (λ x, x) (items (cancelAll w))).
    + rewrite list_fmap_id. by destruct (cancelAll w).
    + intros i x Hx. simpl.
      pose proof (proj1 (Forall_lookup _ _) Hst i x Hx) as [Hs|Hs].
      * rewrite decide_True by done. apply with_status_same.
      * rewrite decide_False by congruence. rewrite <- Hs at 1.
        apply with_status_same.
  - intros draw. apply pump_nothing_queued.
    eapply Forall_impl; [exact Hst|]. by intros x [->| ->].
  - by rewrite cancelAll_unfold.
  - rewrite <- !(length_fmap tag). f_equal. rewrite cancelAll_unfold. simpl.
    apply tag_foldl, tag_abort_if_uploading.
Qed.

(** X10 — [startAll] puts every item in [error] or [canceled] (or [idle])
    back into the queue with progress 0 and no error, and leaves queued,
    uploading and completed items, the store and [running] alone; afterwards
    every item is queued, uploading or completed, and doing it again changes
    nothing. *)
Theorem startAll_requeues_stopped_items w :
  Forall (λ x, status x = Queued ∨ status x = Uploading ∨ status x = Success)
         (items (startAll w))
  ∧ startAll (startAll w) = startAll w
  ∧ (∀ (i : nat) a, items w !! i = Some a →
       items (startAll w) !! i
       = Some (if bool_decide (status a = Queued ∨ status a = Uploading
                               ∨ status a = Success)
               then a else requeued a))
  ∧ (running (startAll w), transfers (startAll w), alert (startAll w))
    = (running w, transfers w, alert w).
Proof.
  assert (Forall (λ x, status x = Queued ∨ status x = Uploading ∨ status x = Success)
            (items (startAll w))) as Hst.
  { unfold startAll. simpl. apply Forall_fmap, Forall_true. intros x. simpl.
    destruct (status x) eqn:Hs; simpl; rewrite ?Hs; auto. }
  split; [done|]. split; [|split; [|done]].
  - unfold startAll at 1.
    rewrite (list_fmap_ext _ (λ x, x) (items (startAll w))).
    + rewrite list_fmap_id. by destruct (startAll w).
    + intros i x Hx. simpl.
      by pose proof (proj1 (Forall_lookup _ _) Hst i x Hx) as [->|[->| ->]].
  - intros i a Hi. unfold startAll. simpl. rewrite list_lookup_fmap, Hi. simpl.
    f_equal. by destruct (status a).
Qed.

(** X11 — [cancelAll] followed by [startAll] restarts everything that is not
    completed: each item that is not in [success] ends up queued with
    progress 0 and no error message, each completed item is untouched. *)
Theorem cancelAll_then_startAll w :
  items (startAll (cancelAll w))
  = (λ x, if decide (status x = Success) then x else requeued x) <$> items w.
Proof.
  rewrite cancelAll_unfold. unfold startAll. simpl.
  rewrite <- list_fmap_compose. apply list_fmap_ext. intros i x _. simpl.
  destruct (decide (status x = Success)) as [Hs|Hs].
  - rewrite Hs. simpl. rewrite <- Hs. apply with_status_same.
  - simpl. by destruct x.
Qed.

(** X12 — cancelling a fresh item that waits in the queue and retrying it
    brings back the state before the cancel. *)
Theorem retry_after_cancel_restores k w :
  Forall (λ x, id x = k → status x = Queued ∧ progress x = 0 ∧ error x = None)
         (items w) →
  retryItem k (cancelItem k w) = w.
Proof.
  intros Hfresh. rewrite cancelItem_queued.
  - unfold retryItem. simpl. rewrite <- list_fmap_compose.
    rewrite (list_fmap_ext _ (λ x, x) (items w)).
    + rewrite list_fmap_id. by destruct w.
    + intros i x Hx. simpl.
      pose proof (proj1 (Forall_lookup _ _) Hfresh i x Hx) as Hk.
      destruct (decide (id x = k)) as [He|He]; simpl.
      * rewrite decide_True by done. destruct (Hk He) as (Hs & Hp & Herr).
        destruct x; simpl in *. by subst.
      * by rewrite decide_False.
  - eapply Forall_impl; [exact Hfresh|]. intros x Hx Hk. by destruct (Hx Hk).
Qed.

(** ** Properties of single items that hold in every state *)

Section item_invariant.
Variable P : Item → Prop.
Variable okenv : TickEnv → Prop.
Hypothesis P_fresh : ∀ fresh n f, P (fresh_item fresh n f).
Hypothesis P_canceled : ∀ x, P x → P (with_status Canceled x).
Hypothesis P_requeued : ∀ x, P x → P (requeued x).
Hypothesis P_started : ∀ c x, P x → status x = Queued → P (start_item c x).
Hypothesis P_progress : ∀ env u p x,
  okenv env → p ∈ (tick env u).2 → P x → P (with_progress p x).
Hypothesis P_succeeded : ∀ url x, P x → P (succeeded url x).
Hypothesis P_failed : ∀ err x, P x → P (failed err x).

Lemma Forall_update_id k f cur :
  (∀ x, P x → P (f x)) → Forall P cur → Forall P (update_id k f cur).
Proof.
  intros Hf Hcur. unfold update_id. apply Forall_fmap.
  eapply Forall_impl; [exact Hcur|]. intros x Hx. simpl. case_decide; auto.
Qed.

Lemma Forall_pump_loop draw available rest : ∀ started run trs next run' trs',
  pump_loop draw available started rest run trs = (next, run', trs') →
  Forall P rest → Forall P next.
Proof.
  induction rest as [|it rest IH]; intros started run trs next run' trs' Hloop Hrest;
    simpl in Hloop.
  { by inversion Hloop. }
  inversion Hrest; subst.
  case_bool_decide; [|by inversion Hloop; subst].
  destruct (decide (status it = Queued));
    destruct (pump_loop _ _ _ rest _ _) as [[nx r] ts] eqn:Hrec;
    inversion Hloop; subst; clear Hloop; constructor; eauto.
Qed.

(** Whatever holds for fresh items and survives each of the record updates
    that the operations perform holds for every item after every event;
    events other than [pump] start no item. *)
Lemma Forall_items_step_no_pump w e :
  (∀ draw, e ≠ Pump draw) →
  match e with Tick _ env => okenv env | _ => True end →
  Forall P (items w) → Forall P (items (step w e)).
Proof.
  intros Hnp Hok Hw. destruct e; simpl.
  - unfold pushFiles.
    pose proof (pushFiles_items_spec fresh arr (items w)) as Hspec. simpl in Hspec.
    destruct (pushFiles_items fresh arr (items w)) as [next errors].
    inversion Hspec; subst. simpl. apply Forall_app. split; [done|].
    apply Forall_lookup_2. intros i y Hy. rewrite list_lookup_imap in Hy.
    destruct (_ !! i); by simplify_eq/=.
  - rewrite cancelItem_items. apply Forall_fmap.
    eapply Forall_impl; [exact Hw|]. intros x Hx. simpl. case_decide; auto.
  - apply Forall_fmap.
    eapply Forall_impl; [exact Hw|]. intros x Hx. simpl. case_decide; auto.
  - apply Forall_forall. intros x Hx. apply list_elem_of_filter in Hx as [_ Hx].
    by apply (proj1 (Forall_forall _ _) Hw).
  - apply Forall_fmap.
    eapply Forall_impl; [exact Hw|]. intros x Hx. simpl. case_match; auto.
  - rewrite cancelAll_items. apply Forall_fmap.
    eapply Forall_impl; [exact Hw|]. intros x Hx. simpl.
    case_decide; [by rewrite with_status_same|auto].
  - by destruct (Hnp draw).
  - unfold tick_transfer. destruct (transfers w !! n) as [t|]; [|done].
    pose proof (P_progress env (upload t)) as Hcalls.
    destruct (tick env (upload t)) as [u calls]. simpl in *.
    revert Hw. generalize (items w).
    induction calls as [|p calls IH]; intros cur Hcur; [done|]. simpl.
    apply IH.
    + intros q x Hq Hin. apply Hcalls; [done|by right].
    + apply Forall_update_id; [|done]. intros x Hx.
      refine (Hcalls p x _ _ _); [done|by left|done].
  - unfold react. destruct (transfers w !! n) as [t|]; [|done].
    case_decide; [|done].
    destruct (promise (upload t)) as [|rid url|err]; [done| |]; simpl;
      (apply Forall_update_id; [|done]); intros x Hx;
      [exact (P_succeeded url x Hx)|exact (P_failed err x Hx)].
  - unfold finally. destruct (transfers w !! n) as [t|]; [|done].
    by case_decide.
Qed.

Lemma Forall_items_step w e :
  match e with Tick _ env => okenv env | _ => True end →
  Forall P (items w) → Forall P (items (step w e)).
Proof.
  intros Hok Hw.
  destruct e; try (by apply Forall_items_step_no_pump).
  simpl. unfold pump. case_bool_decide; [done|].
  destruct (pump_loop _ _ _ _ _ _) as [[next run'] trs'] eqn:Hloop. simpl.
  by eapply Forall_pump_loop.
Qed.

Lemma Forall_items_session evs :
  Forall (λ e, match e with Tick _ env => okenv env | _ => True end) evs →
  Forall P (items (session evs)).
Proof.
  unfold session. assert (Forall P (items initial)) as H0 by constructor.
  revert H0. generalize initial.
  induction evs as [|e evs IH]; intros w Hw Hevs; simpl; [done|].
  apply Forall_cons in Hevs as [He Hevs].
  apply IH; [|done]. by apply Forall_items_step.
Qed.
End item_invariant.

Lemma tick_calls env u p :
  p ∈ (tick env u).2 → p = Z.min 99 (ratio100 env) ∨ p = 100.
Proof.
  unfold tick. destruct (timer u); simpl; try (by intros ?%elem_of_nil).
  destruct (canceled u); simpl; [by intros ?%elem_of_nil|].
  case_bool_decide; [destruct (fail env)|]; simpl; intros Hp;
    repeat (apply elem_of_cons in Hp as [->|Hp]); auto;
    by apply elem_of_nil in Hp.
Qed.

(** X13 — in every state the component can reach the progress of every item
    is at most 100, and it is at least 0 provided the clock never ran
    backwards between the start of an upload and a firing of its interval. *)
Theorem progress_bounds :
  (∀ evs, Forall (λ x, progress x ≤ 100) (items (session evs)))
  ∧ (∀ evs, Forall clock_forward evs →
       Forall (λ x, 0 ≤ progress x ≤ 100) (items (session evs))).
Proof.
  split.
  - intros evs. apply (Forall_items_session _ (λ _, True)).
    + intros fresh n f. unfold fresh_item. by destruct (fresh n).
    + done.
    + done.
    + done.
    + intros env u p x _ Hp _. simpl. apply tick_calls in Hp as [->| ->]; lia.
    + done.
    + done.
    + apply Forall_true. by intros [].
  - intros evs Hevs.
    apply (Forall_items_session _ (λ env, 0 ≤ ratio100 env)).
    + intros fresh n f. unfold fresh_item. by destruct (fresh n).
    + done.
    + done.
    + done.
    + intros env u p x Henv Hp _. simpl. apply tick_calls in Hp as [->| ->]; lia.
    + done.
    + done.
    + eapply Forall_impl; [exact Hevs|]. by intros [].
Qed.

(** X14 — in every state the component can reach the fields of an item fit
    its status: an uploading item holds a controller, a completed item a
    server URL, a failed item an error message, and no item is ever
    [idle]. *)
Theorem fields_fit_status evs : Forall fields_fit (items (session evs)).
Proof.
  apply (Forall_items_session _ (λ _, True)); unfold fields_fit.
  - intros fresh n f. unfold fresh_item. by destruct (fresh n).
  - intros x _. simpl. by repeat split.
  - intros x _. simpl. by repeat split.
  - intros c x _ _. simpl. repeat split; (done || by eexists).
  - intros env u p x _ _ Hx. done.
  - intros url x _. simpl. repeat split; (done || by eexists).
  - intros err x _. simpl.
    destruct (isAbort err); repeat split; (done || by eexists).
  - apply Forall_true. by intros [].
Qed.

(** ** The store of transfers *)

Lemma abort_abort t : abort (abort t) = abort t.
Proof. unfold abort. destruct (aborted t) eqn:Ha; [by rewrite Ha|]. by destruct (listening t). Qed.

(** A fold of effects that are aborts at most leaves each cell as it was or
    aborted. *)
Lemma foldl_abort_cell {A} (h : A → list Transfer → list Transfer) (l : list A) :
  (∀ a s, h a s = s ∨ ∃ c : nat, h a s = alter abort c s) →
  ∀ (trs : list Transfer) (n : nat) t, trs !! n = Some t →
    foldl (λ s a, h a s) trs l !! n = Some t
    ∨ foldl (λ s a, h a s) trs l !! n = Some (abort t).
Proof.
  intros Hh. induction l as [|a l IH]; intros trs n t Hn; simpl; [by left|].
  destruct (Hh a trs) as [->|[c ->]]; [by apply IH|].
  destruct (decide (c = n)) as [->|Hc].
  - destruct (IH (alter abort n trs) n (abort t)) as [H|H].
    + by rewrite list_lookup_alter_eq, Hn.
    + by right.
    + right. by rewrite abort_abort in H.
  - apply IH. by rewrite list_lookup_alter_ne.
Qed.

Lemma abort_if_uploading_shape it s :
  abort_if_uploading it s = s ∨ ∃ c : nat, abort_if_uploading it s = alter abort c s.
Proof. unfold abort_if_uploading. repeat case_match; eauto. Qed.

Lemma length_foldl_abort {A} (h : A → list Transfer → list Transfer) (l : list A) :
  (∀ a s, h a s = s ∨ ∃ c : nat, h a s = alter abort c s) →
  ∀ trs : list Transfer, length (foldl (λ s a, h a s) trs l) = length trs.
Proof.
  intros Hh. induction l as [|a l IH]; intros trs; simpl; [done|].
  rewrite IH. destruct (Hh a trs) as [->|[c ->]]; [done|]. apply length_alter.
Qed.

Lemma cancelItem_unfold k w :
  cancelItem k w
  = mkWorld ((λ it, if decide (id it = k) then with_status Canceled it else it)
               <$> items w)
            (alert w) (running w)
            (foldl (λ s a, if decide (id a = k) then abort_if_uploading a s else s)
                   (transfers w) (items w)).
Proof.
  unfold cancelItem.
  by rewrite (map_store_split _
                (λ it, if decide (id it = k) then with_status Canceled it else it)
                (λ it s, if decide (id it = k) then abort_if_uploading it s else s))
    by (intros; by repeat case_decide).
Qed.

Lemma pump_loop_store_new draw available rest : ∀ started run trs next run' trs',
  pump_loop draw available started rest run trs = (next, run', trs') →
  ∃ new, trs' = trs ++ new ∧ Forall (λ t, ∃ d k, t = launch d k) new.
Proof.
  induction rest as [|it rest IH]; intros started run trs next run' trs' Hloop;
    simpl in Hloop.
  { inversion Hloop; subst. exists []. by rewrite app_nil_r. }
  case_bool_decide; [|inversion Hloop; subst; exists []; by rewrite app_nil_r].
  destruct (decide (status it = Queued));
    destruct (pump_loop _ _ _ rest _ _) as [[nx r] ts] eqn:Hrec;
    inversion Hloop; subst; clear Hloop;
    destruct (IH _ _ _ _ _ _ Hrec) as (new & -> & Hnew).
  - exists (launch (draw (length trs)) (id it) :: new).
    rewrite <- app_assoc. split; [done|]. constructor; eauto.
  - by exists new.
Qed.

Lemma insert_evolves (trs : list Transfer) (n : nat) t t' :
  trs !! n = Some t → evolves t t' →
  ∀ (m : nat) t0, trs !! m = Some t0 →
    ∃ t1, <[n := t']> trs !! m = Some t1 ∧ evolves t0 t1.
Proof.
  intros Hn Hev m t0 Hm. destruct (decide (n = m)) as [->|Hne].
  - rewrite list_lookup_insert_eq by by eapply lookup_lt_Some.
    exists t'. split; [done|]. congruence.
  - rewrite list_lookup_insert_ne by done. exists t0. split; [done|by left].
Qed.

(** What an event does to the store: the transfers already there each take
    at most one step of their life cycle, and new cells, which only [pump]
    appends, hold freshly launched transfers. *)
Lemma store_step w e :
  ∃ new,
    length (transfers (step w e)) = length (transfers w ++ new)
    ∧ Forall (λ t, ∃ d k, t = launch d k) new
    ∧ (∀ (n : nat) t', (transfers w ++ new) !! n = Some t' →
         length (transfers w) ≤ n →
         transfers (step w e) !! n = Some t')%nat
    ∧ (∀ (n : nat) t, transfers w !! n = Some t →
         ∃ t', transfers (step w e) !! n = Some t' ∧ evolves t t').
Proof.
  assert (∀ trs : list Transfer,
    length trs = length (transfers w) →
    (∀ (n : nat) t, transfers w !! n = Some t →
       ∃ t', trs !! n = Some t' ∧ evolves t t') →
    ∃ new, length trs = length (transfers w ++ new)
      ∧ Forall (λ t, ∃ d k, t = launch d k) new
      ∧ (∀ (n : nat) t', (transfers w ++ new) !! n = Some t' →
           length (transfers w) ≤ n → trs !! n = Some t')%nat
      ∧ (∀ (n : nat) t, transfers w !! n = Some t →
           ∃ t', trs !! n = Some t' ∧ evolves t t')) as Hsame.
  { intros trs Hlen Hcells. exists []. rewrite app_nil_r.
    repeat split; [done|constructor| |done].
    intros n t' Hn Hle. apply lookup_lt_Some in Hn. lia. }
  assert (∀ (n : nat) t, transfers w !! n = Some t →
            ∃ t', transfers w !! n = Some t' ∧ evolves t t') as Hrefl
    by (intros n t Hn; exists t; split; [done|by left]).
  destruct e; simpl.
  - unfold pushFiles. destruct (pushFiles_items _ _ _). by apply Hsame.
  - rewrite cancelItem_unfold. simpl. apply Hsame.
    + apply length_foldl_abort. intros a s. case_decide; [|by left].
      apply abort_if_uploading_shape.
    + intros n t Hn.
      destruct (foldl_abort_cell
                  (λ a s, if decide (id a = k) then abort_if_uploading a s else s)
                  (items w)) with (trs := transfers w) (n := n) (t := t) as [H|H];
        try done.
      * intros a s. case_decide; [|by left]. apply abort_if_uploading_shape.
      * eexists; split; [done|by left].
      * eexists; split; [done|right; by left].
  - by apply Hsame.
  - by apply Hsame.
  - by apply Hsame.
  - rewrite cancelAll_unfold. simpl. apply Hsame.
    + apply length_foldl_abort, abort_if_uploading_shape.
    + intros n t Hn.
      destruct (foldl_abort_cell abort_if_uploading (items w)
                  abort_if_uploading_shape (transfers w) n t Hn) as [H|H].
      * eexists; split; [done|by left].
      * eexists; split; [done|right; by left].
  - unfold pump. case_bool_decide; [by apply Hsame|].
    destruct (pump_loop _ _ _ _ _ _) as [[next run'] trs'] eqn:Hloop. simpl.
    destruct (pump_loop_store_new _ _ _ _ _ _ _ _ _ Hloop) as (new & -> & Hnew).
    exists new. repeat split; [done|done|].
    intros n t Hn. exists t. split; [by apply lookup_app_l_Some|by left].
  - unfold tick_transfer. destruct (transfers w !! n) as [t|] eqn:Hn; [|by apply Hsame].
    destruct (tick env (upload t)) as [u calls] eqn:Htick. cbn [transfers].
    apply Hsame; [apply length_insert|].
    eapply insert_evolves; [done|]. right; right; left. exists env.
    unfold fire. by rewrite Htick.
  - unfold react. destruct (transfers w !! n) as [t|] eqn:Hn; [|by apply Hsame].
    case_decide as Hchain; [|by apply Hsame].
    destruct (promise (upload t)) eqn:Hp; [by apply Hsame| |];
      cbn [transfers]; (apply Hsame; [apply length_insert|]);
      (eapply insert_evolves; [done|]); do 3 right; left;
      (repeat split; [done|by rewrite Hp]).
  - unfold finally. destruct (transfers w !! n) as [t|] eqn:Hn; [|by apply Hsame].
    case_decide as Hchain; [|by apply Hsame]. cbn [transfers].
    apply Hsame; [apply length_insert|].
    eapply insert_evolves; [done|]. do 4 right. by split.
Qed.

Lemma sound_launch d k : sound (launch d k).
Proof. unfold sound. simpl. repeat split; try done. left. by repeat split. Qed.

Lemma sound_evolves t t' : sound t → evolves t t' → sound t'.
Proof.
  intros Hs Hev. pose proof Hs as (Hl & Hrun & Hout & Hch).
  destruct Hev as [->|[->|[[env ->]|[(-> & Hw & Hp)|(-> & Hh)]]]].
  - done.
  - unfold abort. destruct (aborted t) eqn:Ha; [done|].
    rewrite Hl. simpl. unfold sound, onAbort, reject, settle. simpl.
    destruct Hrun as [(Ht & Hp & Hc & _)|(Ht & Hp)]; rewrite Ht; simpl.
    + rewrite Hp. simpl. split; [done|]. split; [by right|]. split; [by right|].
      done.
    + destruct (promise (upload t)) eqn:Hpr; [done| |]; simpl;
        (split; [done|]); (split; [by right|]); (split; [done|]); done.
  - unfold sound, fire, tick. simpl.
    destruct Hrun as [(Ht & Hp & Hc & Ha)|(Ht & Hp)]; rewrite Ht; simpl.
    + rewrite Hc. case_bool_decide; [destruct (fail env)|]; simpl;
        unfold reject, resolve, settle; simpl; rewrite Hp; simpl.
      * split; [done|]. split; [by right|]. split; [by left|]. done.
      * split; [done|]. split; [by right|]. done.
      * split; [done|]. split; [left; by repeat split|].
        split; [done|]. intros Hc'. apply Hch in Hc'. congruence.
    + split; [done|]. split; [by right|]. done.
  - unfold sound, with_chain. simpl. by repeat split.
  - unfold sound, with_chain. simpl. repeat split; try done.
    intros _. apply Hch. congruence.
Qed.

Lemma settled_evolves t t' :
  sound t → promise (upload t) ≠ Pending → evolves t t' →
  promise (upload t') = promise (upload t) ∧ owner t' = owner t.
Proof.
  intros (Hl & Hrun & _) Hp [->|[->|[[env ->]|[(-> & _)|(-> & _)]]]]; try done.
  - destruct Hrun as [(_ & Hp' & _)|(Ht & _)]; [done|].
    unfold abort. destruct (aborted t); [done|]. destruct (listening t); [|done].
    unfold onAbort. simpl. rewrite Ht. simpl. unfold reject, settle. simpl.
    by destruct (promise (upload t)).
  - destruct Hrun as [(_ & Hp' & _)|(Ht & _)]; [done|].
    unfold fire, tick. simpl. by rewrite Ht.
Qed.

Lemma owner_evolves t t' : evolves t t' → owner t' = owner t.
Proof.
  intros [->|[->|[[env ->]|[(-> & _)|(-> & _)]]]]; try done.
  unfold abort. by repeat case_match.
Qed.

Lemma store_step_cases w e (n : nat) t' :
  transfers (step w e) !! n = Some t' →
  (∃ t, transfers w !! n = Some t ∧ evolves t t')
  ∨ (transfers w !! n = None ∧ ∃ d k, t' = launch d k).
Proof.
  intros Hn. destruct (store_step w e) as (new & Hlen & Hnew & Hfresh & Hold).
  destruct (transfers w !! n) as [t|] eqn:Ht.
  - left. destruct (Hold n t Ht) as (t1 & H1 & Hev). exists t. split; [done|].
    congruence.
  - right. split; [done|]. apply lookup_ge_None in Ht.
    assert (is_Some ((transfers w ++ new) !! n)) as [t0 H0].
    { apply lookup_lt_is_Some. rewrite <- Hlen. by eapply lookup_lt_Some. }
    rewrite (Hfresh n t0 H0 Ht) in Hn. inversion Hn; subst.
    rewrite lookup_app_r in H0 by done.
    by apply (proj1 (Forall_lookup _ _) Hnew _ _ H0).
Qed.

Lemma sound_foldl evs : ∀ w,
  Forall sound (transfers w) → Forall sound (transfers (foldl step w evs)).
Proof.
  induction evs as [|e evs IH]; intros w Hw; simpl; [done|].
  apply IH. apply Forall_lookup_2. intros n t' Hn.
  destruct (store_step_cases w e n t' Hn) as [(t & Ht & Hev)|(_ & d & k & ->)].
  - eapply sound_evolves; [|done]. by apply (proj1 (Forall_lookup _ _) Hw n t).
  - apply sound_launch.
Qed.

(** X15 — in every state the component can reach, each transfer of the
    store is either running (interval active, promise pending, signal not
    aborted) or settled with its interval cleared; it has been rejected, if
    at all, with the network error or with the abort exception and with
    nothing else; and its reactions have run only if it has settled. *)
Theorem transfers_sound evs : Forall sound (transfers (session evs)).
Proof. apply sound_foldl. constructor. Qed.

(** X16 — a settled transfer is final: whatever happens afterwards (further
    firings, a late abort, any command), its promise keeps the outcome and
    its owner, and a firing of its interval records no progress. *)
Theorem settled_transfer_is_final evs1 evs2 (n : nat) t :
  transfers (session evs1) !! n = Some t →
  promise (upload t) ≠ Pending →
  ∃ t', transfers (session (evs1 ++ evs2)) !! n = Some t'
        ∧ promise (upload t') = promise (upload t)
        ∧ owner t' = owner t
        ∧ ∀ env, items (tick_transfer n env (session (evs1 ++ evs2)))
                 = items (session (evs1 ++ evs2)).
Proof.
  intros Hn Hp. unfold session. rewrite foldl_app. fold (session evs1).
  pose proof (transfers_sound evs1) as Hs.
  assert (sound t) as Ht by (by apply (proj1 (Forall_lookup _ _) Hs n t)).
  clear Hs. revert t Hn Hp Ht. generalize (session evs1).
  induction evs2 as [|e evs IH]; intros w t Hn Hp Ht; simpl.
  - exists t. repeat split; try done. intros env. unfold tick_transfer.
    rewrite Hn. destruct Ht as (_ & [(_ & Hp' & _)|(Htm & _)] & _); [done|].
    unfold tick. by rewrite Htm.
  - destruct (store_step w e) as (_ & _ & _ & _ & Hold).
    destruct (Hold n t Hn) as (t1 & H1 & Hev).
    destruct (settled_evolves t t1 Ht Hp Hev) as [Hp1 Ho1].
    destruct (IH (step w e) t1 H1) as (t' & H' & Hp' & Ho' & Htick).
    + congruence.
    + by eapply sound_evolves.
    + exists t'. repeat split; try done; congruence.
Qed.

(** ** Controller handles *)

Lemma handle_valid_step w e x :
  handle_valid (transfers w) x → handle_valid (transfers (step w e)) x.
Proof.
  intros Hx c Hc. destruct (Hx c Hc) as (t & Ht & Ho).
  destruct (store_step w e) as (_ & _ & _ & _ & Hold).
  destruct (Hold c t Ht) as (t' & Ht' & Hev). exists t'. split; [done|].
  by rewrite (owner_evolves t t' Hev).
Qed.

Lemma handles_step w e :
  Forall (handle_valid (transfers w)) (items w) →
  Forall (handle_valid (transfers (step w e))) (items (step w e)).
Proof.
  intros Hw.
  assert (Forall (handle_valid (transfers (step w e))) (items w)) as Hw'.
  { eapply Forall_impl; [exact Hw|]. intros x. apply handle_valid_step. }
  destruct e;
    try (apply (Forall_items_step_no_pump _ (λ _, True)); try done;
         [intros fresh0 n0 f0 c; unfold fresh_item; by destruct (fresh0 n0)
         |intros x Hx c Hc; by apply (Hx c)..]).
  apply Forall_lookup_2. intros i y Hy.
  pose proof (identities_preserved w (Pump draw)) as Hid. simpl in Hid, Hy.
  assert (is_Some (items w !! i)) as [a Ha].
  { apply lookup_lt_is_Some. rewrite <- (length_fmap identity), <- Hid, length_fmap.
    by eapply lookup_lt_Some. }
  rewrite (pump_lookup draw w i a Ha) in Hy. inversion Hy; subst; clear Hy.
  case_bool_decide as Hstart.
  - destruct Hstart as [Hq Hcap]. intros c Hc. simpl in Hc. inversion Hc; subst.
    eexists. split; [by apply (pump_store draw w i a)|done].
  - apply (handle_valid_step w (Pump draw)).
    by apply (proj1 (Forall_lookup _ _) Hw i a).
Qed.

(** X17 — in every state the component can reach, no item holds a dangling
    controller: the handle of an item is a cell of the store, and the
    transfer in that cell was launched for the id of that item. *)
Theorem handles_valid evs :
  Forall (handle_valid (transfers (session evs))) (items (session evs)).
Proof.
  unfold session. assert (Forall (handle_valid (transfers initial)) (items initial))
    as H0 by constructor.
  revert H0. generalize initial.
  induction evs as [|e evs IH]; intros w Hw; simpl; [done|].
  by apply IH, handles_step.
Qed.

(** ** Cancelling an upload that is running *)

Lemma foldl_abort_hit {A} (h : A → list Transfer → list Transfer) (l : list A)
    (c : nat) :
  (∀ a s, h a s = s ∨ ∃ c' : nat, h a s = alter abort c' s) →
  (∃ a, a ∈ l ∧ ∀ s, h a s = alter abort c s) →
  ∀ (trs : list Transfer) t, trs !! c = Some t →
    foldl (λ s a, h a s) trs l !! c = Some (abort t).
Proof.
  intros Hh. induction l as [|a0 l IH]; intros (a & Ha & Hhit) trs t Hc.
  { by apply elem_of_nil in Ha. }
  simpl. apply elem_of_cons in Ha as [->|Ha].
  - rewrite Hhit.
    destruct (foldl_abort_cell h l Hh (alter abort c trs) c (abort t)) as [H|H].
    + by rewrite list_lookup_alter_eq, Hc.
    + done.
    + by rewrite abort_abort in H.
  - destruct (Hh a0 trs) as [->|[c' ->]]; [apply IH; eauto|].
    destruct (decide (c' = c)) as [->|Hne].
    + rewrite <- (abort_abort t). apply IH; [eauto|].
      by rewrite list_lookup_alter_eq, Hc.
    + apply IH; [eauto|]. by rewrite list_lookup_alter_ne.
Qed.

(** X18 — cancelling an item whose upload is running: [cancelItem] (and
    likewise [cancelAll]) aborts the controller of the item, which rejects
    the pending promise with the abort exception; from then on a firing of
    the interval records no progress; and when the [.catch] reaction runs the
    item is in [canceled] with no error message. *)
Theorem cancel_aborts_running_transfer k w (i c : nat) a t :
  items w !! i = Some a → id a = k → status a = Uploading →
  abortCtrl a = Some c → transfers w !! c = Some t → owner t = k →
  sound t → promise (upload t) = Pending → chain t = Waiting →
  let w1 := cancelItem k w in
  transfers w1 !! c = Some (abort t)
  ∧ transfers (cancelAll w) !! c = Some (abort t)
  ∧ promise (upload (abort t)) = Rejected (DOMException "Aborted" "AbortError")
  ∧ (∀ env, items (tick_transfer c env w1) = items w1)
  ∧ ∃ a', items (react c w1) !! i = Some a'
          ∧ status a' = Canceled ∧ error a' = None.
Proof.
  intros Hi Hk Hs Hctrl Hc Ho (Hl & Hrun & _) Hp Hch w1.
  destruct Hrun as [(Ht & _ & Hcan & Hab)|(_ & Hp')]; [|done].
  rewrite Hab in Hl. simpl in Hl.
  assert (promise (upload (abort t)) = Rejected (DOMException "Aborted" "AbortError")
          ∧ timer (upload (abort t)) = Cleared ∧ owner (abort t) = k
          ∧ chain (abort t) = Waiting) as (Hpa & Hta & Hoa & Hca).
  { unfold abort. rewrite Hab, Hl. unfold onAbort. simpl. rewrite Ht. simpl.
    unfold reject, settle. simpl. by rewrite Hp. }
  assert (transfers w1 !! c = Some (abort t)) as Hc1.
  { unfold w1. rewrite cancelItem_unfold. simpl.
    apply (foldl_abort_hit
             (λ a s, if decide (id a = k) then abort_if_uploading a s else s));
      [|exists a; split|done].
    - intros x s. case_decide; [|by left]. apply abort_if_uploading_shape.
    - by eapply list_elem_of_lookup_2.
    - intros s. rewrite decide_True by done. unfold abort_if_uploading.
      by rewrite Hctrl, decide_True. }
  split; [done|]. split; [|split; [done|split]].
  - rewrite cancelAll_unfold. simpl.
    apply (foldl_abort_hit abort_if_uploading);
      [apply abort_if_uploading_shape|exists a; split|done].
    + by eapply list_elem_of_lookup_2.
    + intros s. unfold abort_if_uploading. by rewrite Hctrl, decide_True.
  - intros env. unfold tick_transfer. rewrite Hc1. unfold tick. by rewrite Hta.
  - unfold react. rewrite Hc1, Hca, decide_True, Hpa by done. simpl.
    unfold w1. rewrite cancelItem_items. unfold on_rejected, update_id.
    rewrite !list_lookup_fmap, Hi. simpl. rewrite Hoa.
    rewrite !decide_True by (done || by (simpl; rewrite decide_True)).
    eexists. split; [done|]. by simpl.
Qed.

(** ** The outcome of an upload *)

Lemma tick_transfer_unfold (n : nat) env w t u calls :
  transfers w !! n = Some t → tick env (upload t) = (u, calls) →
  tick_transfer n env w
  = mkWorld (foldl (λ cur p, onProgress (owner t) p cur) (items w) calls)
            (alert w) (running w)
            (<[n := mkTransfer (owner t) (aborted t) (listening t) u (chain t)]>
               (transfers w)).
Proof. intros Hn Ht. unfold tick_transfer. by rewrite Hn, Ht. Qed.

Lemma react_fulfilled (n : nat) w t rid url :
  transfers w !! n = Some t → chain t = Waiting →
  promise (upload t) = Fulfilled rid url →
  items (react n w) = on_fulfilled (owner t) url (items w).
Proof.
  intros Hn Hchain Hp. unfold react. by rewrite Hn, decide_True, Hp by done.
Qed.

(** X19 — when the interval fires at or after the planned duration of a
    running transfer and the reaction runs, the outcome is recorded on the
    items of the transfer's id: on success [success] with progress 100 and
    the server URL, on failure [error] with the network message and the last
    percentage, which is at most 99; the items of other ids are untouched. *)
Theorem upload_outcome_recorded (n : nat) env w t :
  transfers w !! n = Some t → chain t = Waiting →
  timer (upload t) = Active → canceled (upload t) = false →
  promise (upload t) = Pending → elapsed env >= totalMs (upload t) →
  let w' := react n (tick_transfer n env w) in
  ∀ (i : nat) x, items w !! i = Some x →
    items w' !! i
    = Some (if decide (id x = owner t)
            then if fail env
                 then mkItem (id x) (file x) (previewUrl x)
                             (Z.min 99 (ratio100 env)) Error (Some NETWORK_ERROR)
                             (serverUrl x) (abortCtrl x)
                 else mkItem (id x) (file x) (previewUrl x) 100 Success (error x)
                             (Some (objectURL env)) (abortCtrl x)
            else x).
Proof.
  intros Hn Hch Ht Hc Hp Hel w' i x Hi. unfold w'.
  assert (n < length (transfers w))%nat as Hlt by by eapply lookup_lt_Some.
  destruct (fail env) eqn:Hfail.
  - erewrite tick_transfer_unfold; [|done|].
    2:{ unfold tick. rewrite Ht, Hc, bool_decide_true, Hfail by done.
        unfold reject, settle. cbn [promise]. by rewrite Hp. }
    erewrite react_rejected;
      [|cbn [transfers]; by apply list_lookup_insert_eq|done|done].
    cbn [items foldl owner]. unfold on_rejected, onProgress, update_id.
    rewrite !list_lookup_fmap, Hi. cbn [fmap option_fmap option_map].
    destruct (decide (id x = owner t)) as [Hx|Hx].
    + cbn [id]. by rewrite decide_True.
    + by rewrite decide_False.
  - erewrite tick_transfer_unfold; [|done|].
    2:{ unfold tick. rewrite Ht, Hc, bool_decide_true, Hfail by done.
        unfold resolve, settle. cbn [promise]. by rewrite Hp. }
    erewrite react_fulfilled;
      [|cbn [transfers]; by apply list_lookup_insert_eq|done|done].
    cbn [items foldl owner]. unfold on_fulfilled, onProgress, update_id.
    rewrite !list_lookup_fmap, Hi. cbn [fmap option_fmap option_map].
    f_equal. repeat (case_decide; simpl in *); (done || congruence).
Qed.

(** ** Retrying an item whose upload is still running *)

(** X20 — [retryItem] on an uploading item does not stop its transfer: the
    item goes back to the queue, and when [pump] reaches it a second transfer
    is launched for the same id while the first one is still in the store,
    untouched; the item now holds the new controller only, so cancelling it
    can no longer abort the first transfer. *)
Theorem retry_while_uploading_starts_second_transfer k w (i c : nat) a t draw :
  items w !! i = Some a → id a = k → status a = Uploading →
  abortCtrl a = Some c → transfers w !! c = Some t →
  running w + Z.of_nat (queuedBefore i (items (retryItem k w))) < CONCURRENCY →
  let w' := pump draw (retryItem k w) in
  ∃ c' : nat,
    (c < c')%nat
    ∧ items w' !! i = Some (start_item c' (requeued a))
    ∧ transfers w' !! c = Some t
    ∧ transfers w' !! c' = Some (launch (draw c') k)
    ∧ running w < running w'.
Proof.
  intros Hi Hk Hs Hctrl Hc Hcap w'.
  assert (items (retryItem k w) !! i = Some (requeued a)) as Hi'.
  { rewrite (retryItem_lookup k w i a Hi). by rewrite decide_True. }
  exists (length (transfers w) + queuedBefore i (items (retryItem k w)))%nat.
  split; [apply lookup_lt_Some in Hc; lia|]. split; [|split; [|split]].
  - unfold w'. rewrite (pump_lookup draw _ i _ Hi'). by rewrite bool_decide_true.
  - destruct (store_step (retryItem k w) (Pump draw)) as (_ & _ & _ & _ & Hold).
    unfold w'. unfold pump. rewrite bool_decide_false by (simpl; lia).
    destruct (pump_loop _ _ _ _ _ _) as [[next run'] trs'] eqn:Hloop. simpl.
    destruct (pump_loop_store_new _ _ _ _ _ _ _ _ _ Hloop) as (new & -> & _).
    by apply lookup_app_l_Some.
  - pose proof (pump_store draw (retryItem k w) i (requeued a) Hi' eq_refl Hcap)
      as Hst.
    simpl in Hst. by rewrite Hk in Hst.
  - pose proof (pump_fills_capacity draw (retryItem k w)) as (Hrun & _).
    unfold w'. rewrite Hrun. simpl.
    assert (0 < queuedCount ((λ it, if decide (id it = k) then requeued it else it)
                               <$> items w))%nat; [|lia].
    unfold queuedCount.
    apply (take_drop_middle _ _ _) in Hi'. simpl in Hi'. rewrite <- Hi'.
    rewrite filter_app, length_app, filter_cons_True by done. simpl. lia.
Qed.

(** ** The further properties at work on the sample sessions *)

(** A PNG and a full collection; then the same PNG and the empty collection,
    with the two names bound as in the component and as the modules stand. *)
Lemma pushFiles_single_witness :
  pushFiles_in component_scope sample_fresh [file_a]
    (session [PushFiles sample_fresh (replicate 10 file_b)])
  = inr (session [PushFiles sample_fresh (replicate 10 file_b)])
  ∧ pushFiles_in component_scope sample_fresh [file_a] initial
    = inr (mkWorld [mkItem "item-0" file_a "blob:preview-0" 0 Queued None None None]
                   None 0 [])
  ∧ pushFiles_in utils_scope sample_fresh [file_a] initial
    = inl (not_defined "ACCEPT").
Proof.
  split; [|split].
  - refine (proj1 (pushFiles_single component_scope sample_fresh file_a
                     (session [PushFiles sample_fresh (replicate 10 file_b)])) _).
    left. by vm_compute.
  - refine (proj1 (proj2 (pushFiles_single component_scope sample_fresh file_a
                            initial)) _).
    split; [by vm_compute|]. intros (x & Hx & _). by apply elem_of_nil in Hx.
  - refine (proj1 (proj2 (pushFiles_single utils_scope sample_fresh file_a
                            initial)) _).
    split; [by vm_compute|]. intros (x & Hx & _). by apply elem_of_nil in Hx.
Defined.

(** A PNG one byte over the limit, with the bindings of the component. *)
Lemma validateFile_just_over_limit_witness :
  validateFile_in component_scope file_big = inr (Some "파일 용량 초과(5.00MB)").
Proof.
  apply (validateFile_just_over_limit component_scope ACCEPT file_big).
  - done.
  - done.
  - apply (bool_decide_unpack _). by vm_compute.
  - by vm_compute.
Defined.

(** The same PNG twice in one batch, into the empty collection: two items
    with the bindings of the component, an exception as the modules stand. *)
Lemma pushFiles_batch_duplicates_kept_witness :
  pushFiles_in component_scope sample_fresh [file_a; file_a] initial
  = inr (mkWorld [mkItem "item-0" file_a "blob:preview-0" 0 Queued None None None;
                  mkItem "item-1" file_a "blob:preview-1" 0 Queued None None None]
                 None 0 [])
  ∧ pushFiles_in utils_scope sample_fresh [file_a; file_a] initial
    = inl (not_defined "ACCEPT").
Proof.
  split.
  - refine (proj2 (pushFiles_batch_duplicates_kept component_scope sample_fresh
                     file_a initial _ _)).
    + by vm_compute.
    + intros x Hx. by apply elem_of_nil in Hx.
  - refine (proj2 (pushFiles_batch_duplicates_kept utils_scope sample_fresh
                     file_a initial _ _)).
    + by vm_compute.
    + intros x Hx. by apply elem_of_nil in Hx.
Defined.

(** Ten GIFs followed by a PNG: the PNG is never looked at. *)
Lemma pushFiles_turned_down_files_use_slots_witness :
  (pushFiles_items sample_fresh (replicate 10 file_gif ++ [file_a]) []).1 = [].
Proof.
  apply pushFiles_turned_down_files_use_slots.
  apply (Forall_replicate _ 10 file_gif). right. by vm_compute.
Defined.

(** The only item is removed while its upload runs; the upload then
    completes. *)
Lemma removed_item_stays_removed_witness :
  Forall (λ x, id x ≠ "item-0")
    (items (foldl step (removeItem "item-0" (session uploading_a))
              [Tick 0 completed; React 0; Finally 0; Pump shortest])).
Proof.
  refine (proj2 (proj2 (removed_item_stays_removed "item-0" (session uploading_a)
                          [Tick 0 completed; React 0; Finally 0; Pump shortest] _))).
  repeat constructor.
Defined.

(** The fourth file waits while three uploads run. *)
Lemma retry_after_cancel_restores_witness :
  retryItem "item-3" (cancelItem "item-3" (session (four_files ++ [Pump shortest])))
  = session (four_files ++ [Pump shortest]).
Proof.
  apply retry_after_cancel_restores.
  apply (bool_decide_unpack _). by vm_compute.
Defined.

(** A completed upload, then [cancelAll] and a late firing. *)
Lemma settled_transfer_is_final_witness :
  ∃ t', transfers (session (uploaded_a ++ [CancelAll; Tick 0 midway])) !! 0%nat
        = Some t'
        ∧ promise (upload t') = promise (upload transfer_a_done)
        ∧ owner t' = owner transfer_a_done
        ∧ ∀ env, items (tick_transfer 0 env
                          (session (uploaded_a ++ [CancelAll; Tick 0 midway])))
                 = items (session (uploaded_a ++ [CancelAll; Tick 0 midway])).
Proof.
  apply (settled_transfer_is_final uploaded_a [CancelAll; Tick 0 midway] 0
           transfer_a_done); by vm_compute.
Defined.

(** The only item is cancelled half way through its upload. *)
Lemma cancel_aborts_running_transfer_witness :
  transfers (cancelItem "item-0" (session uploading_a)) !! 0%nat
  = Some (abort transfer_a_running).
Proof.
  refine (proj1 (cancel_aborts_running_transfer "item-0" (session uploading_a) 0 0
                   item_a_uploading transfer_a_running _ _ _ _ _ _ _ _ _));
    try (by vm_compute).
  unfold sound. simpl. repeat split; try done. left. by repeat split.
Defined.

(** The upload of the only item completes. *)
Lemma upload_outcome_recorded_witness :
  items (react 0 (tick_transfer 0 completed (session uploading_a))) !! 0%nat
  = Some (mkItem "item-0" file_a "blob:preview-0" 100 Success None
                 (Some "blob:remote") (Some 0%nat)).
Proof.
  refine (upload_outcome_recorded 0 completed (session uploading_a)
            transfer_a_running _ _ _ _ _ _ 0%nat item_a_uploading _);
    by vm_compute.
Defined.

(** The only item is retried half way through its upload. *)
Lemma retry_while_uploading_starts_second_transfer_witness :
  ∃ c' : nat,
    (0 < c')%nat
    ∧ items (pump shortest (retryItem "item-0" (session uploading_a))) !! 0%nat
      = Some (start_item c' (requeued item_a_uploading))
    ∧ transfers (pump shortest (retryItem "item-0" (session uploading_a))) !! 0%nat
      = Some transfer_a_running
    ∧ transfers (pump shortest (retryItem "item-0" (session uploading_a))) !! c'
      = Some (launch (shortest c') "item-0")
    ∧ running (session uploading_a)
      < running (pump shortest (retryItem "item-0" (session uploading_a))).
Proof.
  apply (retry_while_uploading_starts_second_transfer "item-0" (session uploading_a)
           0 0 item_a_uploading transfer_a_running shortest); by vm_compute.
Defined.
